(** * ArchipelagoFolio: camera tour, easing kernel, section visibility and
      map-animation hooks

    A shallow embedding of

    - the interpolation helpers [lerp], [easeInOutQuad], [easeInCubic],
      [easeOutCubic] and the frame loop [animate] of [startCinematicTour]
      (component [MapboxMap]);
    - the [handleIntersection] callback of the hook [useSectionVisibility];
    - the [flyToRegion] callback of the hook [useMapAnimation], together
      with the [moveend] / [error] listeners it registers and the unmount
      clean-up;
    - the observer effects of [useSectionVisibility] ([checkAndObserveElements]
      and the creation and disconnection of the observers) and its
      [getSectionVisibility];
    - [flyTo] and the guards of the initialisation effect of [MapboxMap].

    JavaScript numbers are modelled by exact rationals [Q]: the arithmetic
    of the source is kept operation for operation, rounding of binary64 is
    not modelled.  Equalities between numbers are therefore stated with
    [Qeq] ([==]).

    The camera poses pushed to the map by the entries of the tour (they
    use [Math.cos] and [Math.sin]) are left out: a frame records the entry
    it draws and the phase it passes to it.  Promises are numbered in the
    order of their creation; sets and maps of React state are [gset] and
    [gmap]. *)

From Stdlib Require Import QArith Qpower Lqa Lia List Bool.
From stdpp Require Import gmap strings list.

Local Open Scope Q_scope.

(** ** JavaScript comparison [<] on numbers *)

Definition Qltb (a b : Q) : bool := negb (Qle_bool b a).

(** ** Interpolation kernel *)

Module Kernel.

(** The arguments of [lerp] have type [number | [number, number]]. *)
Inductive operand : Type :=
| Num (x : Q)
| Vec2 (x0 x1 : Q).

(** Component-wise numeric equality of operands. *)
Definition operand_eq (u v : operand) : Prop :=
  match u, v with
  | Num x, Num y => x == y
  | Vec2 x0 x1, Vec2 y0 y1 => x0 == y0 /\ x1 == y1
  | _, _ => False
  end.

(** Two operands of the same shape. *)
Definition same_shape (u v : operand) : Prop :=
  match u, v with
  | Num _, Num _ | Vec2 _ _, Vec2 _ _ => True
  | _, _ => False
  end.

Definition lerp (a b : operand) (t : Q) : operand :=
  match a, b with
  | Vec2 a0 a1, Vec2 b0 b1 =>
      Vec2 (a0 * (1 - t) + b0 * t) (a1 * (1 - t) + b1 * t)
  | Num a', Num b' => Num (a' * (1 - t) + b' * t)
  | _, _ => a
  end.

Definition easeInOutQuad (t : Q) : Q :=
  if Qltb t (1 # 2) then 2 * t * t else (4 - 2 * t) * t - 1.

Definition easeInCubic (t : Q) : Q := t * t * t.

(** [Math.pow(1 - t, 3)] is the third power. *)
Definition easeOutCubic (t : Q) : Q := 1 - (1 - t) ^ 3.

End Kernel.

(** ** Cinematic tour: the frame loop of [startCinematicTour] *)

Module Tour.

(** One entry of the [animations] table.  The [animate] closure of an
    entry only pushes a camera pose computed from the phase; the frame
    loop below records which entry is drawn and with which phase. *)
Record animation : Type := { name : string; duration : Q }.

Definition animations : list animation :=
  [ {| name := "South Luzon Approach";  duration := 4 |};
    {| name := "Swoop to Makati CBD";   duration := 6 |};
    {| name := "Orbit Makati";          duration := 5 |};
    {| name := "Fly to Manila Bay";     duration := 5 |};
    {| name := "Glide to BGC";          duration := 6 |};
    {| name := "BGC Aerial View";       duration := 4 |};
    {| name := "Transit to Ortigas";    duration := 5 |};
    {| name := "Ascend to North Luzon"; duration := 5 |} ].

(** The two variables captured by the closure [animate]. *)
Record tour_state : Type :=
  { animationIndex : nat; animationTime : Q }.

(** [let animationIndex = 0; let animationTime = 0.0;] *)
Definition initial : tour_state :=
  {| animationIndex := 0; animationTime := 0 |}.

(** Outcome of one call of [animate]. *)
Inductive outcome : Type :=
| Stopped
    (* [if (!mapRef.current) return;]: no further frame is requested *)
| Thrown
    (* [animations[animationIndex]] is undefined (only for an empty
       table): reading [.duration] raises a TypeError *)
| Next (st : tour_state) (drawn : option (nat * Q)).
    (* the state left for the next frame, and the entry drawn with its
       phase when [current.animate(phase)] is called *)

Definition animate (anims : list animation) (mapPresent : bool)
    (st : tour_state) : outcome :=
  if negb mapPresent then Stopped
  else
    let index := (animationIndex st mod length anims)%nat in
    match anims !! index with
    | None => Thrown
    | Some current =>
        let drawn :=
          if Qltb (animationTime st) (duration current)
          then Some (index, animationTime st / duration current)
          else None in
        let time := animationTime st + 1 / 60 in
        if Qltb (duration current) time
        then Next {| animationIndex := S index; animationTime := 0 |} drawn
        else Next {| animationIndex := index; animationTime := time |} drawn
    end.

(** The index of the entry a frame started in state [st] selects
    ([animationIndex % animations.length]). *)
Definition activeIndex (anims : list animation) (st : tour_state) : nat :=
  (animationIndex st mod length anims)%nat.

(** [n] successive frames with the map present. *)
Fixpoint frames (anims : list animation) (n : nat) (st : tour_state)
    : option tour_state :=
  match n with
  | O => Some st
  | S k =>
      match animate anims true st with
      | Next st' _ => frames anims k st'
      | _ => None
      end
  end.

(** The frame started in [st] ends the current entry: the test
    [animationTime > current.duration] after the increment succeeds. *)
Definition completes (anims : list animation) (st : tour_state) : bool :=
  match anims !! activeIndex anims st with
  | Some current => Qltb (duration current) (animationTime st + 1 / 60)
  | None => false
  end.

(** Total time budget of a table: the sum of its durations. *)
Definition totalDuration (anims : list animation) : Q :=
  fold_right (fun a acc => duration a + acc) 0 anims.

(** *** The tick of the specification

    Follows the specification's words, for comparison with [animate]:
    the accumulated time advances by the increment and, while it has
    reached the current duration, the excess is carried into the next
    segment and the index advances, wrapping after the last one. *)
Fixpoint spec_carry (anims : list animation) (fuel : nat)
    (index : nat) (elapsed : Q) : nat * Q :=
  match fuel with
  | O => (index, elapsed)
  | S fuel' =>
      match anims !! index with
      | Some current =>
          if Qle_bool (duration current) elapsed
          then spec_carry anims fuel'
                 (S index mod length anims)%nat (elapsed - duration current)
          else (index, elapsed)
      | None => (index, elapsed)
      end
  end.

Definition spec_tick (anims : list animation) (fuel : nat)
    (st : nat * Q) (delta : Q) : nat * Q :=
  spec_carry anims fuel (fst st) (snd st + delta).

(** The duration of an entry is [k] sixtieths of a second. *)
Definition wholeFrames (a : animation) (k : nat) : Prop :=
  duration a == inject_Z (Z.of_nat k) * (1 / 60).

(** One frame more than its sixtieths for every entry. *)
Definition cycleFrames (ks : list nat) : nat :=
  fold_right (fun k acc => (S k + acc)%nat) 0%nat ks.

(** After [n] frames the state of the loop is the one a single tick of
    [n] sixtieths of a second produces under the specification. *)
Definition agrees_with_spec_tick (anims : list animation) (n : nat)
    (st : tour_state) : Prop :=
  let expected :=
    spec_tick anims (S n) (0%nat, 0) (inject_Z (Z.of_nat n) * (1 / 60)) in
  activeIndex anims st = fst expected /\
  animationTime st == snd expected.

End Tour.

(** ** Section visibility: [handleIntersection] of [useSectionVisibility] *)

Module Mapper.

(** The fields of an [IntersectionObserverEntry] the callback reads;
    [sectionIdAttr] is [entry.target.getAttribute('data-section-id')]. *)
Record entry : Type :=
  { sectionIdAttr : option string;
    isIntersecting : bool;
    intersectionRatio : Q }.

(** The options of the hook the callback depends on; [None] for
    [threshold] is an omitted option, and the two flags tell whether
    the optional callbacks are supplied. *)
Record options : Type :=
  { threshold : option Q;
    onSectionChange : bool;
    onVisibilityChange : bool }.

(** Calls of the callbacks of the host. *)
Inductive call : Type :=
| SectionChange (sectionId : string)
| VisibilityChange (sectionId : string) (isVisible : bool).

(** The three pieces of React state of the hook, and the calls made so
    far (oldest first). *)
Record state : Type :=
  { visibleSections : gset string;
    activeSection : option string;
    sectionProgress : gmap string Q;
    calls : list call }.

Definition initial : state :=
  {| visibleSections := ∅; activeSection := None;
     sectionProgress := ∅; calls := [] |}.

(** [threshold = 0.3] in the parameter list. *)
Definition thresholdOf (o : options) : Q :=
  match threshold o with Some t => t | None => 0.3 end.

(** [(threshold || 0.3)]: a zero threshold is falsy. *)
Definition effectiveThreshold (o : options) : Q :=
  if Qeq_bool (thresholdOf o) 0 then 0.3 else thresholdOf o.

(** [if (!sectionId) return;]: a missing or empty attribute. *)
Definition sectionIdOf (e : entry) : option string :=
  match sectionIdAttr e with
  | Some EmptyString => None
  | other => other
  end.

Definition becomesActive (o : options) (e : entry) : bool :=
  isIntersecting e && Qltb (effectiveThreshold o) (intersectionRatio e).

(** The body of [entries.forEach]. *)
Definition handleEntry (o : options) (st : state) (e : entry) : state :=
  match sectionIdOf e with
  | None => st
  | Some sectionId =>
      let isVisible := isIntersecting e in
      let ratio := intersectionRatio e in
      let visible :=
        if isVisible then {[sectionId]} ∪ visibleSections st
        else visibleSections st ∖ {[sectionId]} in
      let progress := <[sectionId := ratio]> (sectionProgress st) in
      let active :=
        if becomesActive o e then Some sectionId else activeSection st in
      let change :=
        if becomesActive o e && onSectionChange o
        then [SectionChange sectionId] else [] in
      let visibility :=
        if onVisibilityChange o
        then [VisibilityChange sectionId isVisible] else [] in
      {| visibleSections := visible;
         activeSection := active;
         sectionProgress := progress;
         calls := calls st ++ change ++ visibility |}
  end.

Definition handleIntersection (o : options) (st : state)
    (entries : list entry) : state :=
  fold_left (handleEntry o) entries st.

(** Calls of [onSectionChange] in a list of calls. *)
Definition sectionChanges (cs : list call) : list string :=
  flat_map (fun c => match c with
                     | SectionChange s => [s]
                     | VisibilityChange _ _ => []
                     end) cs.

(** The sections of the entries that pass the test of the active
    section, in the order of the entries. *)
Definition activations (o : options) (entries : list entry) : list string :=
  flat_map (fun e => match sectionIdOf e with
                     | Some sectionId =>
                         if becomesActive o e then [sectionId] else []
                     | None => []
                     end) entries.

(** Number of entries whose processing changes [activeSection]. *)
Fixpoint activeChanges (o : options) (st : state) (entries : list entry)
    : nat :=
  match entries with
  | [] => 0
  | e :: rest =>
      let st' := handleEntry o st e in
      ((if bool_decide (activeSection st' = activeSection st) then 0 else 1)
       + activeChanges o st' rest)%nat
  end.

(** The options used below: the default threshold, both callbacks
    supplied. *)
Definition defaults : options :=
  {| threshold := None; onSectionChange := true; onVisibilityChange := true |}.

Definition report (sectionId : string) (intersecting : bool) (ratio : Q)
    : entry :=
  {| sectionIdAttr := Some sectionId; isIntersecting := intersecting;
     intersectionRatio := ratio |}.

(** Six sections in scroll order, as the hook receives them in
    [sections]; position in the list is the order index. *)
Definition sixSections : list string :=
  ["s0"; "s1"; "s2"; "s3"; "s4"; "s5"]%string.

(** *** The recomputation of the specification

    Follows the specification's words, for comparison with
    [handleEntry]: among the sections of [order] (listed by ascending
    order index) that are visible, the one with the largest recorded
    ratio, the earliest in [order] among equals; none when no section is
    visible. *)
Fixpoint spec_active (order : list string) (visible : gset string)
    (progress : gmap string Q) : option string :=
  match order with
  | [] => None
  | s :: rest =>
      let best := spec_active rest visible progress in
      if bool_decide (s ∈ visible) then
        match best with
        | None => Some s
        | Some b =>
            if Qltb (default 0 (progress !! s)) (default 0 (progress !! b))
            then Some b else Some s
        end
      else best
  end.

(** [getSectionVisibility]: [sectionProgress.get(sectionId) || 0]. *)
Definition getSectionVisibility (st : state) (sectionId : string) : Q :=
  match sectionProgress st !! sectionId with
  | Some ratio => if Qeq_bool ratio 0 then 0 else ratio
  | None => 0
  end.

(** Calls of [onVisibilityChange] in a list of calls. *)
Definition visibilityChanges (cs : list call) : list (string * bool) :=
  flat_map (fun c => match c with
                     | SectionChange _ => []
                     | VisibilityChange s v => [(s, v)]
                     end) cs.

(** The entries of a batch that carry the section id [sectionId]. *)
Definition reportsOf (sectionId : string) (entries : list entry)
    : list entry :=
  List.filter (fun e => bool_decide (sectionIdOf e = Some sectionId)) entries.

(** What [onVisibilityChange] is told for a batch: the section and the
    flag of every entry that carries a section id. *)
Definition visibilityReports (entries : list entry) : list (string * bool) :=
  flat_map (fun e => match sectionIdOf e with
                     | Some sectionId => [(sectionId, isIntersecting e)]
                     | None => []
                     end) entries.

(** Every section that is visible or active has a recorded ratio, and
    the empty section id has none. *)
Definition recorded (st : state) : Prop :=
  (forall sectionId, sectionId ∈ visibleSections st ->
     is_Some (sectionProgress st !! sectionId)) /\
  (forall sectionId, activeSection st = Some sectionId ->
     is_Some (sectionProgress st !! sectionId)) /\
  sectionProgress st !! EmptyString = None.

End Mapper.

(** ** Section visibility: the observers of [useSectionVisibility] *)

Module Observers.

(** Observers and elements are numbered.  [observersRef.current] and
    [elementsRef.current] are the two maps; [observing] lists the pairs
    (observer, element) of the [observe] calls whose observer has not
    been disconnected, oldest first; [nextObserver] numbers the
    observers created so far. *)
Record state : Type :=
  { observersRef : gmap string nat;
    elementsRef : gmap string nat;
    observing : list (nat * nat);
    nextObserver : nat }.

Definition initial : state :=
  {| observersRef := ∅; elementsRef := ∅; observing := [];
     nextObserver := 0 |}.

(** The first effect: one new observer per entry of [sections], stored
    under the section id (a repeated id keeps the later observer), then
    [observersRef.current = observers]. *)
Fixpoint newObservers (sections : list string) (next : nat)
    (observers : gmap string nat) : gmap string nat * nat :=
  match sections with
  | [] => (observers, next)
  | sectionId :: rest =>
      newObservers rest (S next) (<[sectionId := next]> observers)
  end.

Definition createObservers (sections : list string) (st : state) : state :=
  let '(observers, next) := newObservers sections (nextObserver st) ∅ in
  {| observersRef := observers; elementsRef := elementsRef st;
     observing := observing st; nextObserver := next |}.

(** [observer.disconnect()] *)
Definition disconnect (observer : nat) (pairs : list (nat * nat))
    : list (nat * nat) :=
  List.filter (fun pr => negb (fst pr =? observer)%nat) pairs.

(** The clean-up of the first effect: the observers it created are
    disconnected ([observersRef.current] still holds them when it
    runs). *)
Definition disconnectObservers (st : state) : state :=
  {| observersRef := observersRef st; elementsRef := elementsRef st;
     observing :=
       fold_right disconnect (observing st)
         (map snd (map_to_list (observersRef st)));
     nextObserver := nextObserver st |}.

(** The body of [sections.forEach] in [checkAndObserveElements];
    [document] gives the element [querySelector] finds for a section. *)
Definition checkSection (document : string -> option nat) (st : state)
    (sectionId : string) : state :=
  match document sectionId, observersRef st !! sectionId,
        elementsRef st !! sectionId with
  | Some element, Some observer, None =>
      {| observersRef := observersRef st;
         elementsRef := <[sectionId := element]> (elementsRef st);
         observing := observing st ++ [(observer, element)];
         nextObserver := nextObserver st |}
  | _, _, _ => st
  end.

Definition checkAndObserveElements (document : string -> option nat)
    (sections : list string) (st : state) : state :=
  fold_left (checkSection document) sections st.

(** Nothing is left to do for a section: it has no element in the
    document, no observer, or is already recorded. *)
Definition settled (document : string -> option nat) (st : state)
    (sectionId : string) : Prop :=
  document sectionId = None \/
  observersRef st !! sectionId = None \/
  is_Some (elementsRef st !! sectionId).

(** A series of polls, each with the document of its moment and the
    [sections] of its closure. *)
Definition polls (ps : list ((string -> option nat) * list string))
    (st : state) : state :=
  fold_left (fun s p => checkAndObserveElements (fst p) (snd p) s) ps st.

End Observers.

(** ** Map animation: [flyToRegion] of [useMapAnimation] *)

Module MapAnimation.

Record MapRegion : Type :=
  { name : string; center : Q * Q; zoom : Q; bearing : Q; pitch : Q }.

(** How a promise is settled: [resolve(v)] or [reject(error)]. *)
Inductive settlement : Type :=
| Resolved (value : bool)
| Rejected.

Inductive eventKind : Type := MoveEnd | Error.

Definition eventKind_eqb (a b : eventKind) : bool :=
  match a, b with
  | MoveEnd, MoveEnd | Error, Error => true
  | _, _ => false
  end.

(** A listener registered on the map: the closure [onMoveEnd] or
    [onError] created by the call of [flyToRegion] that returned promise
    number [owner]. *)
Record listener : Type := { kind : eventKind; owner : nat }.

Definition listener_eqb (a b : listener) : bool :=
  eventKind_eqb (kind a) (kind b) && (owner a =? owner b)%nat.

(** The refs of the hook, the listeners held by the map, and the record
    of what has been called so far (oldest first): [settleCalls] lists
    the calls of the [resolve] / [reject] functions of each promise,
    [flyToCalls] the calls of [mapInstance.flyTo]. *)
Record state : Type :=
  { isAnimating : bool;
    animationPromise : option nat;
    listeners : list listener;
    nextPromise : nat;
    settleCalls : list (nat * settlement);
    flyToCalls : list MapRegion }.

Definition initial : state :=
  {| isAnimating := false; animationPromise := None; listeners := [];
     nextPromise := 0; settleCalls := []; flyToCalls := [] |}.

Definition setAnimating (b : bool) (st : state) : state :=
  {| isAnimating := b; animationPromise := animationPromise st;
     listeners := listeners st; nextPromise := nextPromise st;
     settleCalls := settleCalls st; flyToCalls := flyToCalls st |}.

Definition setPromise (p : option nat) (st : state) : state :=
  {| isAnimating := isAnimating st; animationPromise := p;
     listeners := listeners st; nextPromise := nextPromise st;
     settleCalls := settleCalls st; flyToCalls := flyToCalls st |}.

Definition setListeners (ls : list listener) (st : state) : state :=
  {| isAnimating := isAnimating st; animationPromise := animationPromise st;
     listeners := ls; nextPromise := nextPromise st;
     settleCalls := settleCalls st; flyToCalls := flyToCalls st |}.

(** A call of the [resolve] or [reject] function of promise [p]. *)
Definition settle (p : nat) (s : settlement) (st : state) : state :=
  {| isAnimating := isAnimating st; animationPromise := animationPromise st;
     listeners := listeners st; nextPromise := nextPromise st;
     settleCalls := settleCalls st ++ [(p, s)]; flyToCalls := flyToCalls st |}.

(** [new Promise(...)]: the next promise number is taken. *)
Definition newPromise (st : state) : state :=
  {| isAnimating := isAnimating st; animationPromise := animationPromise st;
     listeners := listeners st; nextPromise := S (nextPromise st);
     settleCalls := settleCalls st; flyToCalls := flyToCalls st |}.

Definition callFlyTo (r : MapRegion) (st : state) : state :=
  {| isAnimating := isAnimating st; animationPromise := animationPromise st;
     listeners := listeners st; nextPromise := nextPromise st;
     settleCalls := settleCalls st; flyToCalls := flyToCalls st ++ [r] |}.

(** [mapInstance.off(kind, listener)] *)
Definition off (l : listener) (st : state) : state :=
  setListeners
    (List.filter (fun l' => negb (listener_eqb l' l)) (listeners st)) st.

(** [mapInstance.once(kind, listener)] *)
Definition once (l : listener) (st : state) : state :=
  setListeners (listeners st ++ [l]) st.

(** [if (animationPromiseRef.current) { ...current.resolve/reject(..);
    animationPromiseRef.current = null; }] *)
Definition settleCurrent (s : settlement) (st : state) : state :=
  match animationPromise st with
  | Some p => setPromise None (settle p s st)
  | None => st
  end.

Definition onMoveEnd (self : nat) (st : state) : state :=
  settleCurrent (Resolved true)
    (off {| kind := Error; owner := self |}
       (off {| kind := MoveEnd; owner := self |}
          (setAnimating false st))).

Definition onError (self : nat) (st : state) : state :=
  settleCurrent Rejected
    (off {| kind := Error; owner := self |}
       (off {| kind := MoveEnd; owner := self |}
          (setAnimating false st))).

(** The promise returned by a call is the one numbered [nextPromise] of
    the state the call starts in.  [mapPresent] tells whether
    [mapInstance] is set, [throws] whether [mapInstance.flyTo] raises. *)
Definition flyToRegion (mapPresent throws : bool) (region : MapRegion)
    (st : state) : state :=
  let p := nextPromise st in
  let st := newPromise st in
  if negb mapPresent || isAnimating st then settle p (Resolved false) st
  else
    let st := setPromise (Some p) (setAnimating true st) in
    let st := callFlyTo region st in
    if throws then settle p Rejected (setAnimating false st)
    else
      once {| kind := Error; owner := p |}
        (once {| kind := MoveEnd; owner := p |} st).

(** The map fires an event: every listener registered for it at that
    moment is taken off (it was registered with [once]) and called, in
    the order of registration. *)
Definition runListener (l : listener) (st : state) : state :=
  match kind l with
  | MoveEnd => onMoveEnd (owner l) (off l st)
  | Error => onError (owner l) (off l st)
  end.

Definition fire (k : eventKind) (st : state) : state :=
  fold_left (fun s l => runListener l s)
    (List.filter (fun l => eventKind_eqb (kind l) k) (listeners st)) st.

(** The clean-up effect run on unmount. *)
Definition unmount (st : state) : state :=
  setAnimating false (settleCurrent (Resolved false) st).

Inductive action : Type :=
| FlyToRegion (mapPresent throws : bool) (region : MapRegion)
| Fire (k : eventKind)
| Unmount.

Definition step (st : state) (a : action) : state :=
  match a with
  | FlyToRegion mapPresent throws region =>
      flyToRegion mapPresent throws region st
  | Fire k => fire k st
  | Unmount => unmount st
  end.

Definition run (acts : list action) (st : state) : state :=
  fold_left step acts st.

(** The calls of [resolve] / [reject] of promise [p], oldest first. *)
Definition settlementsOf (p : nat) (st : state) : list settlement :=
  map snd (List.filter (fun c => (fst c =? p)%nat) (settleCalls st)).

(** State of promise [p]: the first call settles it, later calls of its
    [resolve] / [reject] have no effect; [None] is a pending promise. *)
Definition promiseState (p : nat) (st : state) : option settlement :=
  head (settlementsOf p st).

(** A region of the shipped data, used for examples. *)
Definition makati : MapRegion :=
  {| name := "Makati CBD"; center := (121.0280, 14.5547); zoom := 16;
     bearing := 135; pitch := 70 |}.

(** What the listener of an event does to the promise it finds. *)
Definition outcomeOf (k : eventKind) : settlement :=
  match k with
  | MoveEnd => Resolved true
  | Error => Rejected
  end.

(** The hook no longer holds the functions of promise [p]. *)
Definition released (p : nat) (st : state) : Prop :=
  animationPromise st <> Some p.

(** Promise [p] has not been created yet: none of its functions has
    been called and the hook does not hold them. *)
Definition unborn (st : state) : Prop :=
  forall p, (nextPromise st <= p)%nat ->
    settlementsOf p st = [] /\ released p st.

(** Promise [p] exists and either the hook holds its functions and none
    has been called, or the hook has let go of them and at most one
    call was made. *)
Definition atMostOnce (p : nat) (st : state) : Prop :=
  (p < nextPromise st)%nat /\
  ((animationPromise st = Some p /\ settlementsOf p st = []) \/
   (released p st /\ (length (settlementsOf p st) <= 1)%nat)).


(** While the animation flag is set, the hook holds a promise that is
    still pending and both listeners of that promise are registered. *)
Definition busyIsArmed (st : state) : Prop :=
  isAnimating st = true ->
  exists p,
    animationPromise st = Some p /\
    settlementsOf p st = [] /\
    In {| kind := MoveEnd; owner := p |} (listeners st) /\
    In {| kind := Error; owner := p |} (listeners st).

(** The map holds no listener of the hook, or the animation flag is set
    and it holds exactly the two listeners of the promise the hook
    holds. *)
Definition tidy (st : state) : Prop :=
  (isAnimating st = false /\ listeners st = []) \/
  (exists p,
      isAnimating st = true /\ animationPromise st = Some p /\
      listeners st = [ {| kind := MoveEnd; owner := p |};
                       {| kind := Error; owner := p |} ]).

(** The hook stays mounted. *)
Definition mounted (acts : list action) : Prop :=
  Forall (fun a => a <> Unmount) acts.

End MapAnimation.

(** ** The map component: [flyTo] and the initialisation effect of
    [MapboxMap] *)

Module MapboxMap.

(** [x || d] on numbers: zero is falsy. *)
Definition orElse (x d : Q) : Q := if Qeq_bool x 0 then d else x.

(** The options [flyTo] hands to [mapRef.current.flyTo]. *)
Record FlyToOptions : Type :=
  { center : Q * Q; zoom : Q; bearing : Q; pitch : Q; duration : Q;
    essential : bool; curve : Q; speed : Q }.

(** The [easing] option of [flyTo]. *)
Definition flyToEasing (t : Q) : Q :=
  if Qltb t 0.5 then 2 * t * t else -1 + (4 - 2 * t) * t.

(** [flyTo(region)]: [None] when the guard returns early, otherwise the
    options of the call of [mapRef.current.flyTo]. *)
Definition flyTo (mapPresent styleLoaded : bool)
    (region : MapAnimation.MapRegion) : option FlyToOptions :=
  if negb mapPresent || negb styleLoaded then None
  else
    Some {| center := MapAnimation.center region;
            zoom := MapAnimation.zoom region;
            bearing := orElse (MapAnimation.bearing region) 0;
            pitch := orElse (MapAnimation.pitch region) 60;
            duration := 4000;
            essential := true;
            curve := 1.4;
            speed := 0.4 |}.

(** How the [try] block of the initialisation effect goes: the
    constructor [new mapboxgl.Map] raises, or it returns, the map is
    stored in [mapRef.current] and a later statement of the block (the
    registration of the handlers) raises, or the block runs to its
    end. *)
Inductive tryBlock : Type :=
| ConstructorThrows
| RegistrationThrows
| Completes.

(** How the initialisation effect ends; [ErrorInitialization] is the
    [catch] branch, which tells whether the map was already stored. *)
Inductive initOutcome : Type :=
| SkipNotBrowser
| SkipMapExists
| ErrorTokenRequired
| ErrorTokenFormat
| SkipNoContainer
| ErrorInitialization (mapStored : bool)
| CreateMap.

(** The initialisation effect: its guards in the order of the source,
    then the [try] block; [token] is
    [process.env.NEXT_PUBLIC_MAPBOX_ACCESS_TOKEN]. *)
Definition initGuards (inBrowser mapExists : bool) (token : option string)
    (containerReady : bool) (block : tryBlock) : initOutcome :=
  if negb inBrowser then SkipNotBrowser
  else if mapExists then SkipMapExists
  else
    match token with
    | None | Some EmptyString => ErrorTokenRequired
    | Some t =>
        if negb (String.prefix "pk." t) then ErrorTokenFormat
        else if negb containerReady then SkipNoContainer
        else
          match block with
          | ConstructorThrows => ErrorInitialization false
          | RegistrationThrows => ErrorInitialization true
          | Completes => CreateMap
          end
    end.

(** The outcomes in which the effect calls [setError]. *)
Definition reportsError (o : initOutcome) : bool :=
  match o with
  | ErrorTokenRequired | ErrorTokenFormat | ErrorInitialization _ => true
  | _ => false
  end.

(** The outcomes in which the effect has stored a new map in
    [mapRef.current]. *)
Definition storesMap (o : initOutcome) : bool :=
  match o with
  | CreateMap | ErrorInitialization true => true
  | _ => false
  end.

End MapboxMap.

(** * Properties *)

(** ** Comparison *)

Lemma Qltb_lt a b : Qltb a b = true <-> a < b.
Proof.
  unfold Qltb. rewrite negb_true_iff, <- not_true_iff_false, Qle_bool_iff.
  split; [apply Qnot_le_lt | apply Qlt_not_le].
Qed.

Lemma Qltb_ge a b : Qltb a b = false <-> b <= a.
Proof.
  unfold Qltb. rewrite negb_false_iff. apply Qle_bool_iff.
Qed.

#[global] Instance Qltb_comp : Proper (Qeq ==> Qeq ==> eq) Qltb.
Proof. intros a a' Ha b b' Hb. unfold Qltb. now rewrite Ha, Hb. Qed.

(** ** Interpolation kernel *)

Section KernelFacts.
Import Kernel.

(** C6: for scalars and, component by component, for 2-vectors,
    [lerp a b t] is [a*(1-t) + b*t] for every [t], without clamping (at
    [t = 2] it is [2b - a], at [t = -1] it is [2a - b]); and
    [lerp a b 0] equals [a], [lerp a b 1] equals [b]. *)
Theorem lerp_formula_and_boundaries :
  (forall a b t : Q,
      operand_eq (lerp (Num a) (Num b) t) (Num (a * (1 - t) + b * t)) /\
      operand_eq (lerp (Num a) (Num b) t) (Num (a + t * (b - a)))) /\
  (forall a0 a1 b0 b1 t : Q,
      operand_eq (lerp (Vec2 a0 a1) (Vec2 b0 b1) t)
        (Vec2 (a0 * (1 - t) + b0 * t) (a1 * (1 - t) + b1 * t)) /\
      operand_eq (lerp (Vec2 a0 a1) (Vec2 b0 b1) t)
        (Vec2 (a0 + t * (b0 - a0)) (a1 + t * (b1 - a1)))) /\
  (forall a b : Q,
      operand_eq (lerp (Num a) (Num b) 2) (Num (2 * b - a)) /\
      operand_eq (lerp (Num a) (Num b) (-1)) (Num (2 * a - b))) /\
  (forall a b : operand, same_shape a b ->
      operand_eq (lerp a b 0) a /\ operand_eq (lerp a b 1) b).
Proof.
  split; [| split; [| split]].
  - intros a b t. simpl. split; ring.
  - intros a0 a1 b0 b1 t. simpl. repeat split; ring.
  - intros a b. simpl. split; ring.
  - intros [a | a0 a1] [b | b0 b1] Hshape; simpl in *;
      try contradiction; repeat split; ring.
Qed.

Lemma lerp_formula_and_boundaries_witness :
  operand_eq (lerp (Vec2 1 2) (Vec2 3 5) 0) (Vec2 1 2) /\
  operand_eq (lerp (Vec2 1 2) (Vec2 3 5) 1) (Vec2 3 5).
Proof.
  exact (proj2 (proj2 (proj2 lerp_formula_and_boundaries))
           (Vec2 1 2) (Vec2 3 5) I).
Defined.

Lemma easeInOutQuad_range (t : Q) :
  0 <= t <= 1 -> 0 <= easeInOutQuad t <= 1.
Proof.
  intros [H0 H1]. unfold easeInOutQuad.
  destruct (Qltb t (1 # 2)) eqn:E.
  - apply Qltb_lt in E. split; nra.
  - apply Qltb_ge in E. split; nra.
Qed.

Lemma easeInCubic_range (t : Q) :
  0 <= t <= 1 -> 0 <= easeInCubic t <= 1.
Proof.
  intros [H0 H1]. unfold easeInCubic.
  assert (0 <= t * t <= 1) by (split; nra).
  split; nra.
Qed.

Lemma cube_unfold (x : Q) : x ^ 3 == x * x * x.
Proof. simpl. ring. Qed.

Lemma easeOutCubic_range (t : Q) :
  0 <= t <= 1 -> 0 <= easeOutCubic t <= 1.
Proof.
  intros [H0 H1]. unfold easeOutCubic. rewrite cube_unfold.
  assert (0 <= (1 - t) * (1 - t) <= 1) by (split; nra).
  split; nra.
Qed.

(** C7: each of [easeInOutQuad], [easeInCubic], [easeOutCubic] takes 0
    to 0 and 1 to 1, and maps every [t] of [0,1] into [0,1]. *)
Theorem easings_boundaries_and_range :
  (easeInOutQuad 0 == 0 /\ easeInOutQuad 1 == 1) /\
  (easeInCubic 0 == 0 /\ easeInCubic 1 == 1) /\
  (easeOutCubic 0 == 0 /\ easeOutCubic 1 == 1) /\
  (forall t : Q, 0 <= t <= 1 ->
      0 <= easeInOutQuad t <= 1 /\
      0 <= easeInCubic t <= 1 /\
      0 <= easeOutCubic t <= 1).
Proof.
  split; [split; reflexivity |].
  split; [split; reflexivity |].
  split; [split; reflexivity |].
  intros t Ht. split; [| split].
  - apply easeInOutQuad_range, Ht.
  - apply easeInCubic_range, Ht.
  - apply easeOutCubic_range, Ht.
Qed.

Lemma easings_boundaries_and_range_witness :
  0 <= 1 # 3 <= 1 /\
  0 <= easeInOutQuad (1 # 3) <= 1 /\
  0 <= easeInCubic (1 # 3) <= 1 /\
  0 <= easeOutCubic (1 # 3) <= 1.
Proof.
  assert (H : 0 <= 1 # 3 <= 1) by (split; discriminate).
  split; [exact H |].
  exact (proj2 (proj2 (proj2 easings_boundaries_and_range)) (1 # 3) H).
Defined.

End KernelFacts.

(** ** Cinematic tour *)

Section TourFacts.
Import Tour.

Lemma lookup_active (anims : list animation) (st : tour_state) :
  anims <> [] -> exists current, anims !! activeIndex anims st = Some current.
Proof.
  intros Hne. apply lookup_lt_is_Some_2. unfold activeIndex.
  apply Nat.mod_upper_bound. destruct anims; [congruence | discriminate].
Qed.

Lemma activeIndex_lt (anims : list animation) (st : tour_state) :
  anims <> [] -> (activeIndex anims st < length anims)%nat.
Proof.
  intros Hne. apply Nat.mod_upper_bound.
  destruct anims; [congruence | discriminate].
Qed.

(** One frame, by cases on the test after the increment. *)
Lemma animate_advance anims st current :
  anims !! activeIndex anims st = Some current ->
  duration current < animationTime st + 1 / 60 ->
  exists drawn,
    animate anims true st
    = Next {| animationIndex := S (activeIndex anims st);
              animationTime := 0 |} drawn.
Proof.
  intros Hc Hlt. unfold animate, activeIndex in *. simpl. rewrite Hc.
  apply Qltb_lt in Hlt. rewrite Hlt. eauto.
Qed.

Lemma animate_stay anims st current :
  anims !! activeIndex anims st = Some current ->
  animationTime st + 1 / 60 <= duration current ->
  exists drawn,
    animate anims true st
    = Next {| animationIndex := activeIndex anims st;
              animationTime := animationTime st + 1 / 60 |} drawn.
Proof.
  intros Hc Hle. unfold animate, activeIndex in *. simpl. rewrite Hc.
  apply Qltb_ge in Hle. rewrite Hle. eauto.
Qed.

Lemma animate_total anims st :
  anims <> [] ->
  exists st' drawn,
    animate anims true st = Next st' drawn /\
    (animationIndex st' <= length anims)%nat.
Proof.
  intros Hne. destruct (lookup_active anims st Hne) as [c Hc].
  pose proof (activeIndex_lt anims st Hne) as Hlt.
  destruct (Qlt_le_dec (duration c) (animationTime st + 1 / 60)) as [H | H].
  - destruct (animate_advance _ _ _ Hc H) as [d ->].
    eexists _, _. split; [reflexivity | simpl; lia].
  - destruct (animate_stay _ _ _ Hc H) as [d ->].
    eexists _, _. split; [reflexivity | simpl; lia].
Qed.

Lemma frames_total anims n : forall st,
  anims <> [] ->
  (animationIndex st <= length anims)%nat ->
  exists st',
    frames anims n st = Some st' /\
    (animationIndex st' <= length anims)%nat.
Proof.
  induction n as [| n IH]; intros st Hne Hle; simpl.
  - eauto.
  - destruct (animate_total anims st Hne) as (st' & d & -> & Hle').
    apply IH; assumption.
Qed.

Lemma activeIndex_next anims i t :
  activeIndex anims {| animationIndex := S i; animationTime := t |}
  = (S i mod length anims)%nat.
Proof. reflexivity. Qed.

Lemma activeIndex_idem anims st t :
  activeIndex anims
    {| animationIndex := activeIndex anims st; animationTime := t |}
  = activeIndex anims st.
Proof. unfold activeIndex. simpl. apply Nat.Div0.mod_mod. Qed.

Lemma inject_succ (m : nat) :
  inject_Z (Z.of_nat (S m)) == inject_Z (Z.of_nat m) + 1.
Proof. rewrite Nat2Z.inj_succ, <- Z.add_1_r, inject_Z_plus. reflexivity. Qed.

Lemma inject_nonneg (m : nat) : 0 <= inject_Z (Z.of_nat m).
Proof. change 0 with (inject_Z 0). rewrite <- Zle_Qle. lia. Qed.

Lemma frames_S anims n st :
  frames anims (S n) st
  = match animate anims true st with
    | Next st' _ => frames anims n st'
    | _ => None
    end.
Proof. reflexivity. Qed.

Lemma frames_add anims n : forall m st,
  frames anims (n + m) st
  = match frames anims n st with
    | Some st' => frames anims m st'
    | None => None
    end.
Proof.
  induction n as [| n IH]; intros m st; [reflexivity |].
  rewrite Nat.add_succ_l, !frames_S.
  destruct (animate anims true st); auto.
Qed.

Lemma sixtieth : 1 / 60 == 1 # 60.
Proof. reflexivity. Qed.

(** An entry whose remaining time is [m] sixtieths is left by the
    [(m+1)]-th frame, with the time set back to 0. *)
Lemma frames_until_reset anims current : forall (m : nat) st,
  anims !! activeIndex anims st = Some current ->
  animationTime st == duration current - inject_Z (Z.of_nat m) * (1 / 60) ->
  frames anims (S m) st
  = Some {| animationIndex := S (activeIndex anims st);
            animationTime := 0 |}.
Proof.
  induction m as [| m IH]; intros st Hc Ht.
  - destruct (animate_advance anims st current Hc) as [d Hd].
    { rewrite Ht, !sixtieth. change (inject_Z (Z.of_nat 0)) with 0. lra. }
    simpl. rewrite Hd. reflexivity.
  - destruct (animate_stay anims st current Hc) as [d Hd].
    { rewrite Ht, inject_succ, !sixtieth.
      pose proof (inject_nonneg m). lra. }
    rewrite frames_S, Hd.
    rewrite IH.
    + rewrite activeIndex_idem. reflexivity.
    + rewrite activeIndex_idem. assumption.
    + simpl. rewrite Ht, inject_succ, !sixtieth. lra.
Qed.

(** While the accumulated time stays within the duration, the frames
    remain in the current entry and add up their sixtieths. *)
Lemma frames_stay anims current : forall (m : nat) st,
  anims !! activeIndex anims st = Some current ->
  animationTime st + inject_Z (Z.of_nat m) * (1 / 60) <= duration current ->
  exists st',
    frames anims m st = Some st' /\
    activeIndex anims st' = activeIndex anims st /\
    animationTime st' == animationTime st + inject_Z (Z.of_nat m) * (1 / 60).
Proof.
  induction m as [| m IH]; intros st Hc Ht.
  - exists st. repeat split.
    change (inject_Z (Z.of_nat 0)) with 0. ring.
  - rewrite inject_succ, sixtieth in Ht. pose proof (inject_nonneg m).
    destruct (animate_stay anims st current Hc) as [d Hd].
    { rewrite sixtieth. lra. }
    rewrite frames_S, Hd.
    destruct (IH {| animationIndex := activeIndex anims st;
                    animationTime := animationTime st + 1 / 60 |})
      as (st' & Hst' & Hi & Htime).
    + rewrite activeIndex_idem. assumption.
    + simpl. rewrite !sixtieth. lra.
    + exists st'. split; [assumption |]. split.
      * rewrite Hi. apply activeIndex_idem.
      * rewrite Htime. simpl. rewrite inject_succ. ring.
Qed.

(** A run of consecutive entries [mid] of whole sixtieths, entered at
    time 0, is traversed in [cycleFrames] frames. *)
Lemma frames_through anims_mid : forall ks pre post,
  Forall2 wholeFrames anims_mid ks ->
  frames (pre ++ anims_mid ++ post) (cycleFrames ks)
    {| animationIndex := length pre; animationTime := 0 |}
  = Some {| animationIndex := (length pre + length anims_mid)%nat;
            animationTime := 0 |}.
Proof.
  induction anims_mid as [| a mid IH]; intros ks pre post Hks.
  - inversion Hks; subst. simpl. rewrite Nat.add_0_r. reflexivity.
  - inversion Hks as [| ? k ? ks' Ha Hrest]; subst.
    cbn [cycleFrames fold_right]. rewrite frames_add.
    set (anims := pre ++ (a :: mid) ++ post).
    set (st := {| animationIndex := length pre; animationTime := 0 |}).
    assert (Hi : activeIndex anims st = length pre).
    { unfold activeIndex, anims, st. simpl. apply Nat.mod_small.
      rewrite !length_app. simpl. lia. }
    assert (Hc : anims !! activeIndex anims st = Some a).
    { rewrite Hi. unfold anims. rewrite lookup_app_r by lia.
      rewrite Nat.sub_diag. reflexivity. }
    rewrite (frames_until_reset anims a k st Hc).
    + rewrite Hi. unfold anims.
      replace (pre ++ (a :: mid) ++ post) with ((pre ++ [a]) ++ mid ++ post)
        by (rewrite <- app_assoc; reflexivity).
      replace (S (length pre)) with (length (pre ++ [a]))
        by (rewrite length_app; simpl; lia).
      rewrite IH by auto.
      rewrite length_app. simpl. do 2 f_equal. lia.
    + unfold st. simpl. unfold wholeFrames in Ha. rewrite Ha. ring.
Qed.

(** The shipped table in sixtieths of a second. *)
Lemma animations_sixtieths :
  Forall2 wholeFrames animations [240; 360; 300; 300; 360; 240; 300; 300]%nat.
Proof. repeat constructor; vm_compute; reflexivity. Qed.

Lemma full_cycle :
  frames animations 2408 initial
  = Some {| animationIndex := 8; animationTime := 0 |}.
Proof.
  pose proof (frames_through animations _ [] [] animations_sixtieths) as H.
  rewrite app_nil_r in H. exact H.
Qed.

Lemma before_last_entry :
  frames animations 2107 initial
  = Some {| animationIndex := 7; animationTime := 0 |}.
Proof.
  assert (H : Forall2 wholeFrames (firstn 7 animations)
                [240; 360; 300; 300; 360; 240; 300]%nat)
    by (repeat constructor; vm_compute; reflexivity).
  exact (frames_through _ _ [] (skipn 7 animations) H).
Qed.

(** C8: for a table of [N >= 1] entries and any number of frames from
    the start, the frame loop keeps running, the index of the entry it
    selects is below [N] (the variable itself never exceeds [N]), and a
    frame that ends entry [i] makes the next frame select entry
    [(i+1) mod N]: entry 0 after the last one. *)
Theorem active_index_in_range_and_wraps (anims : list animation) :
  anims <> [] ->
  (forall n, exists st,
      frames anims n initial = Some st /\
      (activeIndex anims st < length anims)%nat /\
      (animationIndex st <= length anims)%nat) /\
  (forall st, completes anims st = true ->
      exists st' drawn,
        animate anims true st = Next st' drawn /\
        animationTime st' = 0 /\
        activeIndex anims st'
        = (S (activeIndex anims st) mod length anims)%nat /\
        (activeIndex anims st = (length anims - 1)%nat ->
         activeIndex anims st' = 0%nat)).
Proof.
  intros Hne. split.
  - intros n.
    destruct (frames_total anims n initial Hne) as (st & Hst & Hle);
      [simpl; lia |].
    exists st. repeat split; [assumption | | assumption].
    apply activeIndex_lt; assumption.
  - intros st Hc. unfold completes in Hc.
    destruct (anims !! activeIndex anims st) as [c |] eqn:E;
      [| discriminate].
    apply Qltb_lt in Hc.
    destruct (animate_advance _ _ _ E Hc) as [d Hd].
    eexists _, d. split; [exact Hd |]. split; [reflexivity |].
    split; [reflexivity |].
    intros Hlast. rewrite activeIndex_next. rewrite Hlast.
    assert (length anims <> 0)%nat
      by (destruct anims; [congruence | discriminate]).
    replace (S (length anims - 1)) with (length anims) by lia.
    apply Nat.Div0.mod_same.
Qed.

Lemma active_index_in_range_and_wraps_witness :
  exists st,
    frames animations 2408 initial = Some st /\
    (activeIndex animations st < length animations)%nat /\
    (animationIndex st <= length animations)%nat.
Proof.
  assert (H : animations <> []) by discriminate.
  exact (proj1 (active_index_in_range_and_wraps animations H) 2408%nat).
Defined.

(** The shipped table: the eighth entry is selected after 2107 frames,
    ends with frame 2408, and the frame after that selects entry 0; the
    variable [animationIndex] itself holds 8 in between. *)
Example tour_wraps_to_first :
  option_map (activeIndex animations) (frames animations 2107 initial)
  = Some 7%nat /\
  option_map animationIndex (frames animations 2408 initial)
  = Some (length animations) /\
  option_map (activeIndex animations) (frames animations 2408 initial)
  = Some 0%nat.
Proof.
  rewrite before_last_entry, full_cycle. repeat split.
Qed.

(** C1, as the code has it: a frame adds one sixtieth of a second to the
    accumulated time; when the sum is strictly above the duration of
    the current entry, the index advances by one and the time is set to
    0, so the excess is dropped, and otherwise the sum is kept.  One
    cycle of the shipped table, whose durations sum to 40 s (2400
    sixtieths), takes 2408 frames. *)
Theorem frame_resets_time_on_advance (anims : list animation) :
  (forall st current,
      anims !! activeIndex anims st = Some current ->
      (duration current < animationTime st + 1 / 60 ->
       exists drawn,
         animate anims true st
         = Next {| animationIndex := S (activeIndex anims st);
                   animationTime := 0 |} drawn) /\
      (animationTime st + 1 / 60 <= duration current ->
       exists drawn,
         animate anims true st
         = Next {| animationIndex := activeIndex anims st;
                   animationTime := animationTime st + 1 / 60 |} drawn)) /\
  (totalDuration animations == 40 /\
   frames animations 2408 initial
   = Some {| animationIndex := 8; animationTime := 0 |}).
Proof.
  split.
  - intros st current Hc. split.
    + apply animate_advance; assumption.
    + apply animate_stay; assumption.
  - split; [vm_compute; reflexivity | exact full_cycle].
Qed.

Lemma frame_resets_time_on_advance_witness :
  exists drawn,
    animate animations true initial
    = Next {| animationIndex := activeIndex animations initial;
              animationTime := animationTime initial + 1 / 60 |} drawn.
Proof.
  refine (proj2 (proj1 (frame_resets_time_on_advance animations) initial
                   {| Tour.name := "South Luzon Approach"; duration := 4 |}
                   _) _).
  - reflexivity.
  - discriminate.
Defined.

(** After as many frames as the durations sum to, the shipped tour is
    still in its last entry. *)
Lemma after_total_duration :
  exists st,
    frames animations 2400 initial = Some st /\
    activeIndex animations st = 7%nat.
Proof.
  replace 2400%nat with (2107 + 293)%nat by reflexivity.
  rewrite frames_add, before_last_entry.
  destruct (frames_stay animations
              {| Tour.name := "Ascend to North Luzon"; duration := 5 |}
              293 {| animationIndex := 7; animationTime := 0 |})
    as (st' & Hst' & Hi' & _); [reflexivity | vm_compute; discriminate |].
  exists st'. split; [exact Hst' |]. rewrite Hi'. reflexivity.
Qed.

Lemma first_entry_left :
  frames animations 241 initial
  = Some {| animationIndex := 1; animationTime := 0 |}.
Proof.
  assert (H : Forall2 wholeFrames (firstn 1 animations) [240%nat])
    by (repeat constructor; vm_compute; reflexivity).
  exact (frames_through _ _ [] (skipn 1 animations) H).
Qed.

(** C1 fails as stated.  After 241 frames (241 sixtieths of a second)
    the loop has left the 4 s entry with time 0, where carrying the
    excess gives one sixtieth; and after 2400 frames, the sum of the
    durations, the loop is in its last entry instead of back at the
    start. *)
Lemma frames_drop_overflow_counterexample :
  ~ (forall n st, frames animations n initial = Some st ->
       agrees_with_spec_tick animations n st) /\
  ~ (exists st, frames animations 2400 initial = Some st /\
       activeIndex animations st = 0%nat /\ animationTime st == 0).
Proof.
  split.
  - intros H.
    destruct (H 241%nat _ first_entry_left) as [_ Ht].
    vm_compute in Ht. discriminate Ht.
  - intros (st & Hst & Hi & _).
    destruct after_total_duration as (st' & Hst' & Hi').
    rewrite Hst' in Hst. injection Hst as <-.
    rewrite Hi' in Hi. discriminate Hi.
Qed.

End TourFacts.

(** ** Section visibility *)

Section MapperFacts.
Import Mapper.

Lemma handleEntry_skip o st e :
  sectionIdOf e = None -> handleEntry o st e = st.
Proof. intros H. unfold handleEntry. rewrite H. reflexivity. Qed.

Lemma handleEntry_visible o st e sectionId :
  sectionIdOf e = Some sectionId ->
  visibleSections (handleEntry o st e)
  = if isIntersecting e then {[sectionId]} ∪ visibleSections st
    else visibleSections st ∖ {[sectionId]}.
Proof. intros H. unfold handleEntry. rewrite H. reflexivity. Qed.

Lemma handleEntry_active o st e sectionId :
  sectionIdOf e = Some sectionId ->
  activeSection (handleEntry o st e)
  = if becomesActive o e then Some sectionId else activeSection st.
Proof. intros H. unfold handleEntry. rewrite H. reflexivity. Qed.

Lemma handleEntry_progress o st e sectionId :
  sectionIdOf e = Some sectionId ->
  sectionProgress (handleEntry o st e)
  = <[sectionId := intersectionRatio e]> (sectionProgress st).
Proof. intros H. unfold handleEntry. rewrite H. reflexivity. Qed.

Lemma sectionChanges_app cs1 cs2 :
  sectionChanges (cs1 ++ cs2) = sectionChanges cs1 ++ sectionChanges cs2.
Proof. unfold sectionChanges. apply flat_map_app. Qed.

Lemma handleEntry_changes o st e :
  onSectionChange o = true ->
  sectionChanges (calls (handleEntry o st e))
  = sectionChanges (calls st) ++ activations o [e].
Proof.
  intros Hon. unfold handleEntry, activations. simpl.
  destruct (sectionIdOf e) as [sectionId |]; simpl.
  - rewrite !sectionChanges_app, Hon, andb_true_r.
    destruct (becomesActive o e), (onVisibilityChange o); reflexivity.
  - rewrite app_nil_r. reflexivity.
Qed.

Lemma activations_cons o e es :
  activations o (e :: es) = activations o [e] ++ activations o es.
Proof. unfold activations. simpl. rewrite app_nil_r. reflexivity. Qed.

Lemma handleIntersection_cons o st e es :
  handleIntersection o st (e :: es)
  = handleIntersection o (handleEntry o st e) es.
Proof. reflexivity. Qed.

Lemma handleIntersection_changes o : forall entries st,
  onSectionChange o = true ->
  sectionChanges (calls (handleIntersection o st entries))
  = sectionChanges (calls st) ++ activations o entries.
Proof.
  induction entries as [| e es IH]; intros st Hon.
  - simpl. rewrite app_nil_r. reflexivity.
  - rewrite handleIntersection_cons, IH by assumption.
    rewrite handleEntry_changes by assumption.
    rewrite (activations_cons o e es), app_assoc. reflexivity.
Qed.

Lemma handleIntersection_active o : forall entries st,
  activeSection (handleIntersection o st entries)
  = match last (activations o entries) with
    | Some sectionId => Some sectionId
    | None => activeSection st
    end.
Proof.
  induction entries as [| e es IH]; intros st; [reflexivity |].
  rewrite handleIntersection_cons, IH, (activations_cons o e es), last_app.
  destruct (last (activations o es)) as [s |]; [reflexivity |].
  unfold activations, handleEntry. simpl.
  destruct (sectionIdOf e) as [sectionId |]; [| reflexivity].
  simpl. destruct (becomesActive o e); reflexivity.
Qed.

(** C2, as the code has it: processing an entry makes its section the
    active one exactly when the entry is intersecting and its ratio is
    strictly above the effective threshold, and leaves the active
    section alone otherwise; after a batch the active section is the
    section of the last such entry, or the previous one when there is
    none, so it never goes back to null. *)
Theorem active_section_is_last_activation
    (o : options) (st : state) (entries : list entry) :
  (forall e sectionId,
      sectionIdOf e = Some sectionId ->
      isIntersecting e = true ->
      effectiveThreshold o < intersectionRatio e ->
      activeSection (handleEntry o st e) = Some sectionId) /\
  (forall e,
      isIntersecting e = false \/ intersectionRatio e <= effectiveThreshold o ->
      activeSection (handleEntry o st e) = activeSection st) /\
  activeSection (handleIntersection o st entries)
  = match last (activations o entries) with
    | Some sectionId => Some sectionId
    | None => activeSection st
    end /\
  (activeSection st <> None ->
   activeSection (handleIntersection o st entries) <> None).
Proof.
  split; [| split; [| split]].
  - intros e sectionId Hid Hvis Hratio.
    rewrite (handleEntry_active _ _ _ _ Hid). unfold becomesActive.
    apply Qltb_lt in Hratio. rewrite Hvis, Hratio. reflexivity.
  - intros e Hno. destruct (sectionIdOf e) as [sectionId |] eqn:Hid.
    + rewrite (handleEntry_active _ _ _ _ Hid). unfold becomesActive.
      destruct Hno as [-> | Hle]; [reflexivity |].
      apply Qltb_ge in Hle. rewrite Hle, andb_false_r. reflexivity.
    + rewrite handleEntry_skip by assumption. reflexivity.
  - apply handleIntersection_active.
  - intros Hsome. rewrite handleIntersection_active.
    destruct (last (activations o entries)); [discriminate | assumption].
Qed.

Lemma active_section_is_last_activation_witness :
  activeSection (handleEntry defaults initial (report "s5" true 0.5))
  = Some "s5"%string.
Proof.
  refine (proj1 (active_section_is_last_activation defaults initial [])
            (report "s5" true 0.5) "s5"%string _ _ _); reflexivity.
Defined.

(** C2 fails as stated.  Sections 2 and 5 of six report ratio 0.5, one
    callback after the other: the active section is section 5, where
    the specification selects section 2.  And once the only visible
    section stops intersecting, the active section stays set, where the
    specification has null. *)
Lemma active_section_counterexample :
  (let st :=
     handleIntersection defaults
       (handleIntersection defaults initial [report "s2" true 0.5])
       [report "s5" true 0.5] in
   activeSection st = Some "s5"%string /\
   spec_active sixSections (visibleSections st) (sectionProgress st)
   = Some "s2"%string) /\
  (let st :=
     handleIntersection defaults
       (handleIntersection defaults initial [report "s2" true 0.5])
       [report "s2" false 0] in
   activeSection st = Some "s2"%string /\
   spec_active sixSections (visibleSections st) (sectionProgress st) = None).
Proof. repeat split; vm_compute; reflexivity. Qed.

(** C3, as the code has it: right after an entry that sets the active
    section, that section is in the visible set; an entry that is not
    intersecting takes its section out of the visible set and leaves
    the active section as it was. *)
Theorem active_section_visible_when_set
    (o : options) (st : state) (e : entry) (sectionId : string) :
  sectionIdOf e = Some sectionId ->
  (becomesActive o e = true ->
   activeSection (handleEntry o st e) = Some sectionId /\
   sectionId ∈ visibleSections (handleEntry o st e)) /\
  (isIntersecting e = false ->
   activeSection (handleEntry o st e) = activeSection st /\
   sectionId ∉ visibleSections (handleEntry o st e)).
Proof.
  intros Hid. split.
  - intros Hact.
    rewrite (handleEntry_active _ _ _ _ Hid), (handleEntry_visible _ _ _ _ Hid).
    rewrite Hact. unfold becomesActive in Hact.
    destruct (isIntersecting e); [| discriminate Hact].
    split; [reflexivity | set_solver].
  - intros Hvis.
    rewrite (handleEntry_active _ _ _ _ Hid), (handleEntry_visible _ _ _ _ Hid).
    unfold becomesActive. rewrite Hvis. split; [reflexivity | set_solver].
Qed.

Lemma active_section_visible_when_set_witness :
  activeSection (handleEntry defaults initial (report "about" true 0.5))
  = Some "about"%string /\
  "about"%string
  ∈ visibleSections (handleEntry defaults initial (report "about" true 0.5)).
Proof.
  refine (proj1 (active_section_visible_when_set defaults initial
                   (report "about" true 0.5) "about"%string _) _);
    reflexivity.
Defined.

(** C3 fails as stated: a section becomes active, then reports that it
    no longer intersects; it is still the active section and the
    visible set is empty. *)
Lemma active_section_not_visible_counterexample :
  let st :=
    handleIntersection defaults
      (handleIntersection defaults initial [report "about" true 0.5])
      [report "about" false 0] in
  activeSection st = Some "about"%string /\
  "about"%string ∉ visibleSections st.
Proof.
  split; [vm_compute; reflexivity |].
  refine (bool_decide_unpack _ _). vm_compute. exact I.
Qed.

Lemma activeChanges_le o : forall entries st,
  (activeChanges o st entries <= length (activations o entries))%nat.
Proof.
  induction entries as [| e es IH]; intros st; [reflexivity |].
  rewrite (activations_cons o e es), length_app.
  cbn [activeChanges]. specialize (IH (handleEntry o st e)).
  enough ((if bool_decide (activeSection (handleEntry o st e)
                           = activeSection st) then 0 else 1)
          <= length (activations o [e]))%nat by lia.
  case_bool_decide as Hch; [lia |].
  unfold activations. simpl.
  destruct (sectionIdOf e) as [sectionId |] eqn:Hid.
  - rewrite (handleEntry_active _ _ _ _ Hid) in Hch.
    destruct (becomesActive o e); [simpl; lia | congruence].
  - rewrite handleEntry_skip in Hch by assumption. congruence.
Qed.

(** C4, as the code has it: with the callback supplied, it is called
    once for every processed entry that is intersecting with a ratio
    strictly above the threshold, with the section of that entry,
    whether or not this changes the active section; so it is called at
    least once per change of the active section. *)
Theorem section_change_called_per_activation
    (o : options) (st : state) (entries : list entry) :
  onSectionChange o = true ->
  sectionChanges (calls (handleIntersection o st entries))
  = sectionChanges (calls st) ++ activations o entries /\
  (activeChanges o st entries <= length (activations o entries))%nat.
Proof.
  intros Hon. split.
  - apply handleIntersection_changes; assumption.
  - apply activeChanges_le.
Qed.

Lemma section_change_called_per_activation_witness :
  sectionChanges
    (calls (handleIntersection defaults initial
              [report "about" true 0.5; report "about" true 0.7]))
  = sectionChanges (calls initial)
    ++ activations defaults
         [report "about" true 0.5; report "about" true 0.7].
Proof.
  refine (proj1 (section_change_called_per_activation defaults initial
                   [report "about" true 0.5; report "about" true 0.7] _));
    reflexivity.
Defined.

(** C4 fails as stated: the same section reports ratio 0.5 and then
    0.7; the active section changes once and the callback is called
    twice with the same section. *)
Lemma section_change_repeated_counterexample :
  let entries := [report "about" true 0.5; report "about" true 0.7] in
  sectionChanges (calls (handleIntersection defaults initial entries))
  = ["about"; "about"]%string /\
  activeChanges defaults initial entries = 1%nat.
Proof. split; vm_compute; reflexivity. Qed.

(** C5, as the code has it: after an entry for a section is processed,
    the section is in the visible set if and only if the entry is
    intersecting; the ratio is stored as the progress of the section
    and does not decide membership; other sections keep theirs. *)
Theorem visible_iff_intersecting
    (o : options) (st : state) (e : entry) (sectionId : string) :
  sectionIdOf e = Some sectionId ->
  (sectionId ∈ visibleSections (handleEntry o st e)
   <-> isIntersecting e = true) /\
  sectionProgress (handleEntry o st e) !! sectionId
  = Some (intersectionRatio e) /\
  (forall other, other <> sectionId ->
     (other ∈ visibleSections (handleEntry o st e)
      <-> other ∈ visibleSections st)).
Proof.
  intros Hid.
  rewrite (handleEntry_visible _ _ _ _ Hid), (handleEntry_progress _ _ _ _ Hid).
  split; [| split].
  - destruct (isIntersecting e); split; intros H;
      [reflexivity | set_solver | set_solver | discriminate].
  - apply lookup_insert_eq.
  - intros other Hne. destruct (isIntersecting e); set_solver.
Qed.

Lemma visible_iff_intersecting_witness :
  "about"%string
  ∈ visibleSections (handleEntry defaults initial (report "about" true 0.1))
  <-> isIntersecting (report "about" true 0.1) = true.
Proof.
  refine (proj1 (visible_iff_intersecting defaults initial
                   (report "about" true 0.1) "about"%string _));
    reflexivity.
Defined.

(** C5 fails as stated: an intersecting entry with ratio 0.1, below the
    threshold 0.3, puts its section in the visible set. *)
Lemma visible_below_threshold_counterexample :
  let st := handleIntersection defaults initial [report "about" true 0.1] in
  "about"%string ∈ visibleSections st /\
  ~ (thresholdOf defaults <= 0.1).
Proof.
  split.
  - refine (bool_decide_unpack _ _). vm_compute. exact I.
  - vm_compute. intros H. apply H. reflexivity.
Qed.

End MapperFacts.

(** ** Map animation *)

Section MapAnimationFacts.
Import MapAnimation.

Lemma settlementsOf_settle p q s st :
  settlementsOf p (settle q s st)
  = settlementsOf p st ++ (if (q =? p)%nat then [s] else []).
Proof.
  unfold settlementsOf, settle. simpl.
  rewrite List.filter_app, List.map_app. simpl.
  destruct (q =? p)%nat; reflexivity.
Qed.

(** The listeners act on the promise like the guarded block they end
    with. *)
Lemma runListener_view l st :
  animationPromise (runListener l st)
  = animationPromise (settleCurrent (outcomeOf (kind l)) st) /\
  settleCalls (runListener l st)
  = settleCalls (settleCurrent (outcomeOf (kind l)) st) /\
  nextPromise (runListener l st) = nextPromise st.
Proof.
  destruct l as [[] self]; unfold runListener, onMoveEnd, onError,
    settleCurrent; simpl; destruct (animationPromise st); simpl; auto.
Qed.

Lemma settleCurrent_some s st p :
  animationPromise st = Some p ->
  settleCurrent s st = setPromise None (settle p s st).
Proof. intros H. unfold settleCurrent. rewrite H. reflexivity. Qed.

Lemma settleCurrent_none s st :
  animationPromise st = None -> settleCurrent s st = st.
Proof. intros H. unfold settleCurrent. rewrite H. reflexivity. Qed.

Lemma settlementsOf_view p st st' :
  settleCalls st' = settleCalls st ->
  settlementsOf p st' = settlementsOf p st.
Proof. unfold settlementsOf. intros ->. reflexivity. Qed.

(** *** One listener *)

Lemma runListener_released p l st :
  released p st ->
  released p (runListener l st) /\
  settlementsOf p (runListener l st) = settlementsOf p st.
Proof.
  intros Hrel. destruct (runListener_view l st) as (Hp & Hc & _).
  unfold released in *. rewrite Hp.
  rewrite (settlementsOf_view p _ _ Hc).
  destruct (animationPromise st) as [q |] eqn:E.
  - rewrite (settleCurrent_some _ _ _ E). simpl. split; [discriminate |].
    change (settlementsOf p (setPromise None (settle q (outcomeOf (kind l)) st)))
      with (settlementsOf p (settle q (outcomeOf (kind l)) st)).
    rewrite settlementsOf_settle.
    destruct (Nat.eqb_spec q p); [congruence | apply app_nil_r].
  - rewrite (settleCurrent_none _ _ E). rewrite E. split; [discriminate | reflexivity].
Qed.

Lemma runListener_atMostOnce p l st :
  atMostOnce p st -> atMostOnce p (runListener l st).
Proof.
  intros [Hlt [[Hp Hnone] | [Hrel Hle]]];
    destruct (runListener_view l st) as (Hp' & Hc' & Hn');
    (split; [rewrite Hn'; assumption |]).
  - right. unfold released. rewrite Hp', (settlementsOf_view p _ _ Hc').
    rewrite (settleCurrent_some _ _ _ Hp). simpl. split; [discriminate |].
    change (settlementsOf p (setPromise None (settle p (outcomeOf (kind l)) st)))
      with (settlementsOf p (settle p (outcomeOf (kind l)) st)).
    rewrite settlementsOf_settle, Hnone, Nat.eqb_refl. simpl. lia.
  - right. destruct (runListener_released p l st Hrel) as [H1 H2].
    split; [assumption | rewrite H2; assumption].
Qed.

Lemma runListener_unborn l st : unborn st -> unborn (runListener l st).
Proof.
  intros Hu p Hp. destruct (runListener_view l st) as (_ & _ & Hn).
  rewrite Hn in Hp. destruct (Hu p Hp) as [Hnone Hrel].
  destruct (runListener_released p l st Hrel) as [H1 H2].
  split; [rewrite H2; assumption | assumption].
Qed.

(** *** All the listeners of an event *)

Lemma listeners_nextPromise ls : forall st,
  nextPromise (fold_left (fun s l => runListener l s) ls st) = nextPromise st.
Proof.
  induction ls as [| l ls IH]; intros st; [reflexivity |].
  simpl. rewrite IH. apply runListener_view.
Qed.

Lemma listeners_released p ls : forall st,
  released p st ->
  released p (fold_left (fun s l => runListener l s) ls st) /\
  settlementsOf p (fold_left (fun s l => runListener l s) ls st)
  = settlementsOf p st.
Proof.
  induction ls as [| l ls IH]; intros st Hrel; [split; auto |].
  simpl. destruct (runListener_released p l st Hrel) as [H1 H2].
  destruct (IH _ H1) as [H3 H4]. split; [assumption | congruence].
Qed.

Lemma listeners_atMostOnce p ls : forall st,
  atMostOnce p st ->
  atMostOnce p (fold_left (fun s l => runListener l s) ls st).
Proof.
  induction ls as [| l ls IH]; intros st H; [assumption |].
  simpl. apply IH, runListener_atMostOnce, H.
Qed.

Lemma listeners_unborn ls : forall st,
  unborn st -> unborn (fold_left (fun s l => runListener l s) ls st).
Proof.
  induction ls as [| l ls IH]; intros st H; [assumption |].
  simpl. apply IH, runListener_unborn, H.
Qed.

(** The first listener of the event settles the promise the hook
    holds; the others find nothing to settle. *)
Lemma listeners_settle p k l ls st :
  kind l = k ->
  animationPromise st = Some p ->
  settlementsOf p st = [] ->
  let st' := fold_left (fun s l => runListener l s) (l :: ls) st in
  settlementsOf p st' = [outcomeOf k] /\ released p st'.
Proof.
  intros Hk Hp Hnone. simpl.
  destruct (runListener_view l st) as (Hp' & Hc' & _).
  rewrite (settleCurrent_some _ _ _ Hp) in Hp', Hc'. simpl in Hp'.
  assert (Hrel : released p (runListener l st))
    by (unfold released; rewrite Hp'; discriminate).
  destruct (listeners_released p ls _ Hrel) as [H1 H2].
  split; [| assumption].
  rewrite H2, (settlementsOf_view p _ _ Hc').
  change (settlementsOf p (setPromise None (settle p (outcomeOf (kind l)) st)))
    with (settlementsOf p (settle p (outcomeOf (kind l)) st)).
  rewrite settlementsOf_settle, Hnone, Nat.eqb_refl, Hk. reflexivity.
Qed.

(** *** One action *)

Lemma flyToRegion_nextPromise mapPresent throws region st :
  nextPromise (flyToRegion mapPresent throws region st) = S (nextPromise st).
Proof.
  unfold flyToRegion. simpl.
  destruct (negb mapPresent || isAnimating st), throws; reflexivity.
Qed.

Lemma flyToRegion_other p mapPresent throws region st :
  p <> nextPromise st ->
  settlementsOf p (flyToRegion mapPresent throws region st)
  = settlementsOf p st.
Proof.
  intros Hne. unfold flyToRegion. simpl.
  destruct (negb mapPresent || isAnimating st); [| destruct throws].
  - rewrite settlementsOf_settle.
    destruct (Nat.eqb_spec (nextPromise st) p); [congruence | apply app_nil_r].
  - rewrite settlementsOf_settle.
    destruct (Nat.eqb_spec (nextPromise st) p); [congruence | apply app_nil_r].
  - reflexivity.
Qed.

Lemma flyToRegion_released p mapPresent throws region st :
  p <> nextPromise st ->
  released p st ->
  released p (flyToRegion mapPresent throws region st).
Proof.
  intros Hne Hrel. unfold released, flyToRegion in *. simpl.
  destruct (negb mapPresent || isAnimating st); [| destruct throws]; simpl;
    congruence.
Qed.

Lemma step_nextPromise st a : (nextPromise st <= nextPromise (step st a))%nat.
Proof.
  destruct a as [mapPresent throws region | k |]; simpl.
  - rewrite flyToRegion_nextPromise. lia.
  - unfold fire. rewrite listeners_nextPromise. lia.
  - unfold unmount, settleCurrent. simpl.
    destruct (animationPromise st); simpl; lia.
Qed.

Lemma unmount_view st :
  animationPromise (unmount st)
  = animationPromise (settleCurrent (Resolved false) st) /\
  settleCalls (unmount st) = settleCalls (settleCurrent (Resolved false) st) /\
  nextPromise (unmount st) = nextPromise st.
Proof.
  unfold unmount, settleCurrent. destruct (animationPromise st); simpl; auto.
Qed.

Lemma step_released p st a :
  (p < nextPromise st)%nat ->
  released p st ->
  released p (step st a) /\ settlementsOf p (step st a) = settlementsOf p st.
Proof.
  intros Hlt Hrel. destruct a as [mapPresent throws region | k |]; simpl.
  - split; [apply flyToRegion_released | apply flyToRegion_other];
      first [lia | assumption].
  - apply listeners_released. assumption.
  - destruct (unmount_view st) as (Hp & Hc & _).
    unfold released in *. rewrite Hp, (settlementsOf_view p _ _ Hc).
    destruct (animationPromise st) as [q |] eqn:E.
    + rewrite (settleCurrent_some _ _ _ E). simpl. split; [discriminate |].
      change (settlementsOf p (setPromise None (settle q (Resolved false) st)))
        with (settlementsOf p (settle q (Resolved false) st)).
      rewrite settlementsOf_settle.
      destruct (Nat.eqb_spec q p); [congruence | apply app_nil_r].
    + rewrite (settleCurrent_none _ _ E), E. split; [discriminate | reflexivity].
Qed.

Lemma step_atMostOnce p st a : atMostOnce p st -> atMostOnce p (step st a).
Proof.
  intros H. pose proof (step_nextPromise st a) as Hmono.
  destruct H as [Hlt [[Hp Hnone] | [Hrel Hle]]].
  - destruct a as [mapPresent throws region | k |]; simpl.
    + split; [rewrite flyToRegion_nextPromise; lia |].
      rewrite flyToRegion_other by lia.
      unfold released, flyToRegion. simpl.
      destruct (negb mapPresent || isAnimating st); [| destruct throws]; simpl.
      * left. auto.
      * right. rewrite Hnone. split; [intros [= ?]; lia | simpl; lia].
      * right. rewrite Hnone. split; [intros [= ?]; lia | simpl; lia].
    + apply listeners_atMostOnce. split; [assumption | left; auto].
    + destruct (unmount_view st) as (Hp' & Hc' & Hn').
      split; [rewrite Hn'; assumption |]. right.
      unfold released. rewrite Hp', (settlementsOf_view p _ _ Hc').
      rewrite (settleCurrent_some _ _ _ Hp). simpl. split; [discriminate |].
      change (settlementsOf p (setPromise None (settle p (Resolved false) st)))
        with (settlementsOf p (settle p (Resolved false) st)).
      rewrite settlementsOf_settle, Hnone, Nat.eqb_refl. simpl. lia.
  - destruct (step_released p st a Hlt Hrel) as [H1 H2].
    split; [lia |]. right. split; [assumption | rewrite H2; assumption].
Qed.

Lemma step_unborn st a : unborn st -> unborn (step st a).
Proof.
  intros Hu. destruct a as [mapPresent throws region | k |]; simpl.
  - intros p Hp. rewrite flyToRegion_nextPromise in Hp.
    destruct (Hu p ltac:(lia)) as [Hnone Hrel].
    split.
    + rewrite flyToRegion_other by lia. assumption.
    + apply flyToRegion_released; [lia | assumption].
  - apply listeners_unborn. assumption.
  - intros p Hp. destruct (unmount_view st) as (Hp' & Hc' & Hn').
    rewrite Hn' in Hp. destruct (Hu p Hp) as [Hnone Hrel].
    unfold released in *. rewrite Hp', (settlementsOf_view p _ _ Hc').
    destruct (animationPromise st) as [q |] eqn:E.
    + rewrite (settleCurrent_some _ _ _ E). simpl. split; [| discriminate].
      change (settlementsOf p (setPromise None (settle q (Resolved false) st)))
        with (settlementsOf p (settle q (Resolved false) st)).
      rewrite settlementsOf_settle, Hnone.
      destruct (Nat.eqb_spec q p); [congruence | reflexivity].
    + rewrite (settleCurrent_none _ _ E), E. split; [assumption | discriminate].
Qed.

(** *** Sequences of actions *)

Lemma run_unborn acts : forall st, unborn st -> unborn (run acts st).
Proof.
  induction acts as [| a acts IH]; intros st H; [assumption |].
  simpl. apply IH, step_unborn, H.
Qed.

Lemma initial_unborn : unborn initial.
Proof. intros p _. split; [reflexivity | discriminate]. Qed.

Lemma run_atMostOnce p acts : forall st,
  atMostOnce p st -> atMostOnce p (run acts st).
Proof.
  induction acts as [| a acts IH]; intros st H; [assumption |].
  simpl. apply IH, step_atMostOnce, H.
Qed.

Lemma run_released p acts : forall st,
  (p < nextPromise st)%nat ->
  released p st ->
  settlementsOf p (run acts st) = settlementsOf p st.
Proof.
  induction acts as [| a acts IH]; intros st Hlt Hrel; [reflexivity |].
  simpl. destruct (step_released p st a Hlt Hrel) as [H1 H2].
  pose proof (step_nextPromise st a).
  rewrite IH; [assumption | lia | assumption].
Qed.

Lemma eventKind_eqb_eq a b : eventKind_eqb a b = true -> a = b.
Proof. destruct a, b; simpl; congruence. Qed.

(** A call that passes the guard and whose [flyTo] returns. *)
Lemma flyToRegion_started region st :
  isAnimating st = false ->
  flyToRegion true false region st
  = once {| kind := Error; owner := nextPromise st |}
      (once {| kind := MoveEnd; owner := nextPromise st |}
         (callFlyTo region
            (setPromise (Some (nextPromise st))
               (setAnimating true (newPromise st))))).
Proof. intros H. unfold flyToRegion. simpl. rewrite H. reflexivity. Qed.

(** When the animation has started, the event [k] finds a listener. *)
Lemma started_snapshot region st k :
  isAnimating st = false ->
  exists l ls,
    List.filter (fun l => eventKind_eqb (kind l) k)
      (listeners (flyToRegion true false region st)) = l :: ls /\
    kind l = k.
Proof.
  intros H. rewrite (flyToRegion_started region st H). simpl.
  rewrite <- app_assoc, List.filter_app.
  destruct (List.filter _ (listeners st)) as [| l ls] eqn:E.
  - destruct k; simpl; eauto.
  - exists l, (ls ++ List.filter (fun l0 => eventKind_eqb (kind l0) k)
                       ([{| kind := MoveEnd; owner := nextPromise st |}]
                        ++ [{| kind := Error; owner := nextPromise st |}])).
    split; [reflexivity |].
    assert (Hin : In l (List.filter (fun l0 => eventKind_eqb (kind l0) k)
                          (listeners st))) by (rewrite E; left; reflexivity).
    apply List.filter_In in Hin as [_ Hk]. apply eventKind_eqb_eq, Hk.
Qed.

(** C9: take any history of the hook and a call of [flyToRegion] that
    starts an animation.  Whatever happens afterwards, the functions of
    the returned promise are called at most once in all.  The first
    [moveend] or [error] event after the call settles the promise
    (resolved with true, or rejected), and after it no event, unmount
    or further call reaches the promise again. *)
Theorem flyToRegion_settles_at_most_once
    (pre : list action) (region : MapRegion) :
  isAnimating (run pre initial) = false ->
  (forall post,
      (length (settlementsOf (nextPromise (run pre initial))
                 (run post (flyToRegion true false region (run pre initial))))
       <= 1)%nat) /\
  (forall k later,
      promiseState (nextPromise (run pre initial))
        (fire k (flyToRegion true false region (run pre initial)))
      = Some (outcomeOf k) /\
      settlementsOf (nextPromise (run pre initial))
        (run later
           (fire k (flyToRegion true false region (run pre initial))))
      = [outcomeOf k]).
Proof.
  intros Hidle.
  set (st := run pre initial) in *. set (p := nextPromise st).
  set (started := flyToRegion true false region st).
  assert (Hu : unborn st) by apply run_unborn, initial_unborn.
  destruct (Hu p (Nat.le_refl _)) as [Hnone _].
  assert (Hp : animationPromise started = Some p)
    by (unfold started; rewrite flyToRegion_started by assumption;
        reflexivity).
  assert (Hnone' : settlementsOf p started = [])
    by (unfold started; rewrite flyToRegion_started by assumption;
        exact Hnone).
  assert (Hnext : nextPromise started = S p)
    by apply flyToRegion_nextPromise.
  split.
  - intros post.
    assert (H : atMostOnce p (run post started)).
    { apply run_atMostOnce. split; [lia | left; auto]. }
    destruct H as [_ [[_ ->] | [_ H]]]; [simpl; lia | assumption].
  - intros k later.
    destruct (started_snapshot region st k Hidle) as (l & ls & Hsnap & Hk).
    fold started in Hsnap.
    destruct (listeners_settle p k l ls started Hk Hp Hnone') as [Hs Hrel].
    assert (Hfire : fire k started
                    = fold_left (fun s l => runListener l s) (l :: ls) started)
      by (unfold fire; rewrite Hsnap; reflexivity).
    rewrite Hfire. split.
    + unfold promiseState. rewrite Hs. reflexivity.
    + rewrite run_released; [assumption | | assumption].
      rewrite listeners_nextPromise. lia.
Qed.

Lemma flyToRegion_settles_at_most_once_witness :
  (length (settlementsOf (nextPromise (run [] initial))
             (run [Fire MoveEnd; Fire Error; Unmount]
                (flyToRegion true false makati (run [] initial))))
   <= 1)%nat.
Proof.
  refine (proj1 (flyToRegion_settles_at_most_once [] makati _)
            [Fire MoveEnd; Fire Error; Unmount]).
  reflexivity.
Defined.

(** A [moveend] followed by an [error] for the same operation: the
    promise is resolved once and the second event calls nothing. *)
Example moveend_then_error :
  settleCalls
    (run [FlyToRegion true false makati; Fire MoveEnd; Fire Error] initial)
  = [(0%nat, Resolved true)].
Proof. reflexivity. Qed.

(** C10: called without a map instance, or while an animation is in
    progress, [flyToRegion] resolves the promise it returns with false
    and does nothing else: [flyTo] is not called, and the animation
    flag, the promise held by the hook and the listeners are as
    before. *)
Theorem flyToRegion_refused
    (pre : list action) (mapPresent throws : bool) (region : MapRegion) :
  mapPresent = false \/ isAnimating (run pre initial) = true ->
  promiseState (nextPromise (run pre initial))
    (flyToRegion mapPresent throws region (run pre initial))
  = Some (Resolved false) /\
  settleCalls (flyToRegion mapPresent throws region (run pre initial))
  = settleCalls (run pre initial)
    ++ [(nextPromise (run pre initial), Resolved false)] /\
  flyToCalls (flyToRegion mapPresent throws region (run pre initial))
  = flyToCalls (run pre initial) /\
  isAnimating (flyToRegion mapPresent throws region (run pre initial))
  = isAnimating (run pre initial) /\
  animationPromise (flyToRegion mapPresent throws region (run pre initial))
  = animationPromise (run pre initial) /\
  listeners (flyToRegion mapPresent throws region (run pre initial))
  = listeners (run pre initial).
Proof.
  intros Hguard. set (st := run pre initial) in *.
  assert (Hu : unborn st) by apply run_unborn, initial_unborn.
  destruct (Hu (nextPromise st) (Nat.le_refl _)) as [Hnone _].
  assert (Hcall : flyToRegion mapPresent throws region st
                  = settle (nextPromise st) (Resolved false) (newPromise st)).
  { unfold flyToRegion. simpl.
    destruct Hguard as [-> | ->]; [reflexivity |].
    rewrite orb_true_r. reflexivity. }
  rewrite Hcall. repeat split.
  unfold promiseState. rewrite settlementsOf_settle, Nat.eqb_refl.
  change (settlementsOf (nextPromise st) (newPromise st))
    with (settlementsOf (nextPromise st) st).
  rewrite Hnone. reflexivity.
Qed.

Lemma flyToRegion_refused_witness :
  promiseState (nextPromise (run [FlyToRegion true false makati] initial))
    (flyToRegion true false makati
       (run [FlyToRegion true false makati] initial))
  = Some (Resolved false) /\
  flyToCalls
    (flyToRegion true false makati
       (run [FlyToRegion true false makati] initial))
  = flyToCalls (run [FlyToRegion true false makati] initial).
Proof.
  assert (H : true = false
              \/ isAnimating (run [FlyToRegion true false makati] initial)
                 = true) by (right; reflexivity).
  pose proof (flyToRegion_refused [FlyToRegion true false makati]
                true false makati H) as (H1 & _ & H3 & _).
  exact (conj H1 H3).
Defined.

End MapAnimationFacts.

(** ** Cinematic tour: further properties *)

Section TourMore.
Import Tour.

(** X5: an entry whose duration is zero or negative is never drawn: the
    frame that selects it at a time that is not negative draws nothing
    and moves on to the next entry. *)
Theorem nonpositive_duration_skipped
    (anims : list animation) (st : tour_state) (current : animation) :
  anims !! activeIndex anims st = Some current ->
  duration current <= 0 ->
  0 <= animationTime st ->
  animate anims true st
  = Next {| animationIndex := S (activeIndex anims st); animationTime := 0 |}
      None.
Proof.
  intros Hc Hd H0. unfold animate. simpl.
  fold (activeIndex anims st). rewrite Hc.
  assert (E1 : Qltb (animationTime st) (duration current) = false)
    by (apply Qltb_ge; lra).
  assert (E2 : Qltb (duration current) (animationTime st + 1 / 60) = true)
    by (apply Qltb_lt; rewrite sixtieth; lra).
  rewrite E1, E2. reflexivity.
Qed.

Lemma nonpositive_duration_skipped_witness :
  animate [ {| Tour.name := "pause"; duration := 0 |} ] true initial
  = Next {| animationIndex := 1; animationTime := 0 |} None.
Proof.
  refine (nonpositive_duration_skipped
            [ {| Tour.name := "pause"; duration := 0 |} ] initial
            {| Tour.name := "pause"; duration := 0 |} _ _ _);
    [reflexivity | discriminate | discriminate].
Defined.

(** An entry with less than [m] sixtieths left is over within [m + 1]
    frames. *)
Lemma frames_leave_within anims current : forall (m : nat) st,
  anims !! activeIndex anims st = Some current ->
  duration current - animationTime st < inject_Z (Z.of_nat m) * (1 / 60) ->
  exists n,
    (n <= m)%nat /\
    frames anims (S n) st
    = Some {| animationIndex := S (activeIndex anims st);
              animationTime := 0 |}.
Proof.
  induction m as [| m IH]; intros st Hc Hm.
  - change (inject_Z (Z.of_nat 0)) with 0 in Hm.
    destruct (animate_advance anims st current Hc) as [d Hd].
    { rewrite sixtieth. lra. }
    exists 0%nat. split; [lia |]. rewrite frames_S, Hd. reflexivity.
  - rewrite inject_succ, sixtieth in Hm.
    destruct (Qlt_le_dec (duration current) (animationTime st + 1 / 60))
      as [Hlt | Hle].
    + destruct (animate_advance anims st current Hc Hlt) as [d Hd].
      exists 0%nat. split; [lia |]. rewrite frames_S, Hd. reflexivity.
    + destruct (animate_stay anims st current Hc Hle) as [d Hd].
      destruct (IH {| animationIndex := activeIndex anims st;
                      animationTime := animationTime st + 1 / 60 |})
        as (n & Hn & Hf).
      * rewrite activeIndex_idem. assumption.
      * simpl. rewrite !sixtieth. lra.
      * exists (S n). split; [lia |].
        rewrite frames_S, Hd, Hf, activeIndex_idem. reflexivity.
Qed.

(** X6: the loop does not stay in an entry for ever: from a state that
    selects an entry of the table, with an accumulated time that is not
    negative and a duration of at most 2^32 seconds (far below the
    sizes at which an increment of one sixtieth would be lost to
    rounding), some number of frames ends the entry, with the next
    index and the time back at 0. *)
Theorem every_entry_ends
    (anims : list animation) (st : tour_state) (current : animation) :
  anims !! activeIndex anims st = Some current ->
  0 <= animationTime st ->
  duration current <= 4294967296 ->
  exists n,
    frames anims (S n) st
    = Some {| animationIndex := S (activeIndex anims st);
              animationTime := 0 |}.
Proof.
  intros Hc _ _.
  destruct (Qarchimedean ((duration current - animationTime st) * 60))
    as [p Hp].
  destruct (frames_leave_within anims current (Pos.to_nat p) st Hc)
    as (n & _ & Hn).
  - rewrite positive_nat_Z, sixtieth.
    assert (Hq : inject_Z (Z.pos p) == Z.pos p # 1) by reflexivity.
    rewrite Hq. lra.
  - exists n. exact Hn.
Qed.

Lemma every_entry_ends_witness :
  exists n,
    frames animations (S n) initial
    = Some {| animationIndex := S (activeIndex animations initial);
              animationTime := 0 |}.
Proof.
  refine (every_entry_ends animations initial
            {| Tour.name := "South Luzon Approach"; duration := 4 |} _ _ _).
  - reflexivity.
  - discriminate.
  - discriminate.
Defined.

End TourMore.

(** ** Section visibility: further properties *)

Section MapperMore.
Import Mapper.

Lemma sectionIdOf_nonempty e sectionId :
  sectionIdOf e = Some sectionId -> sectionId <> EmptyString.
Proof.
  unfold sectionIdOf. destruct (sectionIdAttr e) as [[| c s] |];
    intros [= <-]; discriminate.
Qed.

Lemma reportsOf_cons sectionId e es :
  reportsOf sectionId (e :: es)
  = (if bool_decide (sectionIdOf e = Some sectionId) then [e] else [])
    ++ reportsOf sectionId es.
Proof.
  unfold reportsOf. simpl.
  destruct (bool_decide (sectionIdOf e = Some sectionId)); reflexivity.
Qed.

Lemma last_reports sectionId e es :
  last (reportsOf sectionId (e :: es))
  = match last (reportsOf sectionId es) with
    | Some e' => Some e'
    | None => if bool_decide (sectionIdOf e = Some sectionId)
              then Some e else None
    end.
Proof.
  rewrite reportsOf_cons, last_app.
  destruct (last (reportsOf sectionId es)); [reflexivity |].
  destruct (bool_decide (sectionIdOf e = Some sectionId)); reflexivity.
Qed.

Lemma handleEntry_progress_at o st e sectionId :
  sectionProgress (handleEntry o st e) !! sectionId
  = if bool_decide (sectionIdOf e = Some sectionId)
    then Some (intersectionRatio e)
    else sectionProgress st !! sectionId.
Proof.
  destruct (sectionIdOf e) as [s |] eqn:E.
  - rewrite (handleEntry_progress _ _ _ _ E).
    case_bool_decide as H.
    + injection H as ->. apply lookup_insert_eq.
    + apply lookup_insert_ne. congruence.
  - rewrite handleEntry_skip by assumption.
    rewrite bool_decide_eq_false_2 by discriminate. reflexivity.
Qed.

Lemma handleEntry_visible_at o st e sectionId :
  sectionId ∈ visibleSections (handleEntry o st e)
  <-> if bool_decide (sectionIdOf e = Some sectionId)
      then isIntersecting e = true
      else sectionId ∈ visibleSections st.
Proof.
  destruct (sectionIdOf e) as [s |] eqn:E.
  - rewrite (handleEntry_visible _ _ _ _ E).
    case_bool_decide as H.
    + injection H as ->. destruct (isIntersecting e); set_solver.
    + assert (s <> sectionId) by congruence.
      destruct (isIntersecting e); set_solver.
  - rewrite handleEntry_skip by assumption.
    rewrite bool_decide_eq_false_2 by discriminate. reflexivity.
Qed.

(** X7: after a batch, the progress recorded for a section is the ratio
    of the last entry of the batch that carries its id, and what was
    recorded before when there is none; so [getSectionVisibility]
    answers the last reported ratio, and 0 for a section that never
    reported. *)
Theorem progress_is_last_report
    (o : options) (entries : list entry) (sectionId : string) :
  (forall st,
      sectionProgress (handleIntersection o st entries) !! sectionId
      = match last (reportsOf sectionId entries) with
        | Some e => Some (intersectionRatio e)
        | None => sectionProgress st !! sectionId
        end) /\
  getSectionVisibility (handleIntersection o initial entries) sectionId
  == match last (reportsOf sectionId entries) with
     | Some e => intersectionRatio e
     | None => 0
     end.
Proof.
  assert (H : forall st,
             sectionProgress (handleIntersection o st entries) !! sectionId
             = match last (reportsOf sectionId entries) with
               | Some e => Some (intersectionRatio e)
               | None => sectionProgress st !! sectionId
               end).
  { induction entries as [| e es IH]; intros st; [reflexivity |].
    rewrite handleIntersection_cons, IH, last_reports.
    destruct (last (reportsOf sectionId es)); [reflexivity |].
    rewrite handleEntry_progress_at.
    destruct (bool_decide (sectionIdOf e = Some sectionId)); reflexivity. }
  split; [exact H |].
  unfold getSectionVisibility. rewrite H.
  destruct (last (reportsOf sectionId entries)) as [e |]; [| reflexivity].
  destruct (Qeq_bool (intersectionRatio e) 0) eqn:E; [| reflexivity].
  apply Qeq_bool_eq in E. rewrite E. reflexivity.
Qed.

(** X8: after a batch, a section is in the visible set exactly when the
    last entry of the batch that carries its id is intersecting; a
    section without an entry in the batch stays as it was. *)
Theorem visible_is_last_report
    (o : options) (entries : list entry) (sectionId : string) (st : state) :
  sectionId ∈ visibleSections (handleIntersection o st entries)
  <-> match last (reportsOf sectionId entries) with
      | Some e => isIntersecting e = true
      | None => sectionId ∈ visibleSections st
      end.
Proof.
  revert st. induction entries as [| e es IH]; intros st; [reflexivity |].
  rewrite handleIntersection_cons, IH, last_reports.
  destruct (last (reportsOf sectionId es)); [reflexivity |].
  rewrite handleEntry_visible_at.
  destruct (bool_decide (sectionIdOf e = Some sectionId)); reflexivity.
Qed.

Lemma handleEntry_recorded o st e : recorded st -> recorded (handleEntry o st e).
Proof.
  intros (Hv & Ha & He).
  destruct (sectionIdOf e) as [s |] eqn:E;
    [| rewrite handleEntry_skip by assumption; repeat split; assumption].
  pose proof (sectionIdOf_nonempty _ _ E) as Hne.
  unfold recorded.
  rewrite (handleEntry_visible _ _ _ _ E), (handleEntry_active _ _ _ _ E),
    (handleEntry_progress _ _ _ _ E).
  split; [| split].
  - intros x Hx. destruct (decide (x = s)) as [-> | Hxs].
    + rewrite lookup_insert_eq. eauto.
    + rewrite lookup_insert_ne by congruence. apply Hv.
      destruct (isIntersecting e); set_solver.
  - intros x Hx. destruct (decide (x = s)) as [-> | Hxs].
    + rewrite lookup_insert_eq. eauto.
    + rewrite lookup_insert_ne by congruence. apply Ha.
      destruct (becomesActive o e); congruence.
  - rewrite lookup_insert_ne by assumption. assumption.
Qed.

(** X9: starting from the initial state and whatever the options of each
    batch, every section in the visible set and the active section have
    a recorded ratio, and the empty section id is never recorded,
    visible or active. *)
Theorem reached_states_recorded :
  recorded initial /\
  (forall o st entries,
      recorded st ->
      recorded (handleIntersection o st entries) /\
      (EmptyString ∉ visibleSections (handleIntersection o st entries)) /\
      activeSection (handleIntersection o st entries) <> Some EmptyString).
Proof.
  split.
  - repeat split; intros x H; [set_solver | discriminate].
  - intros o st entries Hrec.
    assert (H : recorded (handleIntersection o st entries)).
    { revert st Hrec. induction entries as [| e es IH]; intros st Hrec;
        [assumption |].
      rewrite handleIntersection_cons. apply IH, handleEntry_recorded, Hrec. }
    split; [exact H |]. destruct H as (Hv & Ha & He). split.
    + intros Hin. apply Hv in Hin. rewrite He in Hin.
      destruct Hin as [? Hin]. discriminate Hin.
    + intros Hact. apply Ha in Hact. rewrite He in Hact.
      destruct Hact as [? Hact]. discriminate Hact.
Qed.

Lemma reached_states_recorded_witness :
  recorded (handleIntersection defaults initial
              [report "about" true 0.5; report EmptyString true 0.9]).
Proof.
  exact (proj1 (proj2 reached_states_recorded defaults initial
                  [report "about" true 0.5; report EmptyString true 0.9]
                  (proj1 reached_states_recorded))).
Defined.

Lemma effectiveThreshold_zero t cb1 cb2 :
  t == 0 ->
  effectiveThreshold
    {| threshold := Some t; onSectionChange := cb1;
       onVisibilityChange := cb2 |}
  = effectiveThreshold
      {| threshold := None; onSectionChange := cb1;
         onVisibilityChange := cb2 |}.
Proof.
  intros Ht. unfold effectiveThreshold, thresholdOf. simpl.
  apply Qeq_bool_iff in Ht. rewrite Ht. reflexivity.
Qed.

(** X10: a threshold of zero is not used: the hook with [threshold: 0]
    behaves on every batch exactly like the hook with the threshold
    omitted, so a section needs a ratio above 0.3 to become active. *)
Theorem zero_threshold_is_default
    (t : Q) (cb1 cb2 : bool) (st : state) (entries : list entry) :
  t == 0 ->
  handleIntersection
    {| threshold := Some t; onSectionChange := cb1;
       onVisibilityChange := cb2 |} st entries
  = handleIntersection
      {| threshold := None; onSectionChange := cb1;
         onVisibilityChange := cb2 |} st entries.
Proof.
  intros Ht. revert st.
  induction entries as [| e es IH]; intros st; [reflexivity |].
  rewrite !handleIntersection_cons, IH. f_equal.
  unfold handleEntry, becomesActive.
  rewrite (effectiveThreshold_zero t cb1 cb2 Ht). reflexivity.
Qed.

Lemma zero_threshold_is_default_witness :
  handleIntersection
    {| threshold := Some 0; onSectionChange := true;
       onVisibilityChange := true |} initial [report "about" true 0.2]
  = handleIntersection
      {| threshold := None; onSectionChange := true;
         onVisibilityChange := true |} initial [report "about" true 0.2].
Proof.
  refine (zero_threshold_is_default 0 true true initial
            [report "about" true 0.2] _).
  reflexivity.
Defined.

Lemma visibilityChanges_app cs1 cs2 :
  visibilityChanges (cs1 ++ cs2)
  = visibilityChanges cs1 ++ visibilityChanges cs2.
Proof. unfold visibilityChanges. apply flat_map_app. Qed.

Lemma handleEntry_visibility o st e :
  visibilityChanges (calls (handleEntry o st e))
  = visibilityChanges (calls st)
    ++ (if onVisibilityChange o then visibilityReports [e] else []).
Proof.
  unfold handleEntry, visibilityReports. simpl.
  destruct (sectionIdOf e) as [sectionId |]; simpl.
  - rewrite !visibilityChanges_app.
    destruct (becomesActive o e && onSectionChange o),
      (onVisibilityChange o); reflexivity.
  - destruct (onVisibilityChange o); rewrite app_nil_r; reflexivity.
Qed.

Lemma visibilityReports_cons e es :
  visibilityReports (e :: es) = visibilityReports [e] ++ visibilityReports es.
Proof. unfold visibilityReports. simpl. rewrite app_nil_r. reflexivity. Qed.

(** X11: [onVisibilityChange], when supplied, is called once for every
    entry that carries a section id, in the order of the entries, with
    the section and the [isIntersecting] flag of that entry, whether or
    not the visible set changes; when it is not supplied no such call
    is made. *)
Theorem visibility_change_called_per_entry
    (o : options) (entries : list entry) (st : state) :
  visibilityChanges (calls (handleIntersection o st entries))
  = visibilityChanges (calls st)
    ++ (if onVisibilityChange o then visibilityReports entries else []).
Proof.
  revert st. induction entries as [| e es IH]; intros st.
  - simpl. destruct (onVisibilityChange o); rewrite app_nil_r; reflexivity.
  - rewrite handleIntersection_cons, IH, handleEntry_visibility.
    rewrite (visibilityReports_cons e es).
    destruct (onVisibilityChange o).
    + rewrite app_assoc. reflexivity.
    + rewrite !app_nil_r. reflexivity.
Qed.

End MapperMore.

(** ** Section visibility: the observers *)

Section ObserversFacts.
Import Observers.

Lemma checkSection_cases document st sectionId :
  (checkSection document st sectionId = st /\
   settled document st sectionId) \/
  (exists element observer,
      document sectionId = Some element /\
      observersRef st !! sectionId = Some observer /\
      elementsRef st !! sectionId = None /\
      checkSection document st sectionId
      = {| observersRef := observersRef st;
           elementsRef := <[sectionId := element]> (elementsRef st);
           observing := observing st ++ [(observer, element)];
           nextObserver := nextObserver st |}).
Proof.
  unfold checkSection, settled.
  destruct (document sectionId) as [element |]; [| left; auto].
  destruct (observersRef st !! sectionId) as [observer |]; [| left; auto].
  destruct (elementsRef st !! sectionId) as [old |] eqn:E.
  - left. split; [reflexivity |]. right. right. eauto.
  - right. eauto 10.
Qed.

Lemma checkSection_observersRef document st sectionId :
  observersRef (checkSection document st sectionId) = observersRef st.
Proof.
  destruct (checkSection_cases document st sectionId)
    as [[-> _] | (el & ob & _ & _ & _ & ->)]; reflexivity.
Qed.

Lemma checkSection_keeps document st sectionId other :
  is_Some (elementsRef st !! other) ->
  is_Some (elementsRef (checkSection document st sectionId) !! other).
Proof.
  intros H.
  destruct (checkSection_cases document st sectionId)
    as [[-> _] | (el & ob & _ & _ & Hnone & ->)]; [assumption |].
  simpl. destruct (decide (sectionId = other)) as [-> | Hne].
  - rewrite lookup_insert_eq. eauto.
  - rewrite lookup_insert_ne by assumption. assumption.
Qed.

Lemma checkSection_settles document st sectionId :
  settled document (checkSection document st sectionId) sectionId.
Proof.
  destruct (checkSection_cases document st sectionId)
    as [[-> H] | (el & ob & _ & _ & _ & ->)]; [assumption |].
  right. right. simpl. rewrite lookup_insert_eq. eauto.
Qed.

Lemma checkSection_settled_mono document st sectionId other :
  settled document st other ->
  settled document (checkSection document st sectionId) other.
Proof.
  intros [H | [H | H]].
  - left. assumption.
  - right. left. rewrite checkSection_observersRef. assumption.
  - right. right. apply checkSection_keeps. assumption.
Qed.

Lemma check_settled_mono document sections : forall st other,
  settled document st other ->
  settled document (checkAndObserveElements document sections st) other.
Proof.
  induction sections as [| x xs IH]; intros st other H; [assumption |].
  simpl. apply IH, checkSection_settled_mono, H.
Qed.

Lemma check_settles document sections : forall st sectionId,
  sectionId ∈ sections ->
  settled document (checkAndObserveElements document sections st) sectionId.
Proof.
  induction sections as [| x xs IH]; intros st sectionId Hin.
  - inversion Hin.
  - simpl. apply elem_of_cons in Hin as [-> | Hin].
    + apply check_settled_mono, checkSection_settles.
    + apply IH, Hin.
Qed.

Lemma check_nothing_to_do document sections : forall st,
  (forall sectionId, sectionId ∈ sections -> settled document st sectionId) ->
  checkAndObserveElements document sections st = st.
Proof.
  induction sections as [| x xs IH]; intros st H; [reflexivity |].
  simpl.
  assert (Hx : checkSection document st x = st).
  { destruct (checkSection_cases document st x)
      as [[E _] | (el & ob & Hd & Ho & He & _)]; [assumption |].
    assert (Hin : x ∈ x :: xs) by (apply elem_of_cons; left; reflexivity).
    destruct (H x Hin) as [H1 | [H1 | [? H1]]]; congruence. }
  rewrite Hx. apply IH. intros y Hy. apply H, elem_of_cons. right.
  assumption.
Qed.

(** X12: the poll is idempotent: running [checkAndObserveElements] a
    second time on the same document changes nothing; no observer is
    attached twice however often the interval fires. *)
Theorem poll_is_idempotent
    (document : string -> option nat) (sections : list string) (st : state) :
  checkAndObserveElements document sections
    (checkAndObserveElements document sections st)
  = checkAndObserveElements document sections st.
Proof.
  apply check_nothing_to_do. intros sectionId Hin.
  apply check_settles, Hin.
Qed.

Lemma checkSection_count document st sectionId :
  (length (observing (checkSection document st sectionId))
   + size (elementsRef st)
   = length (observing st)
     + size (elementsRef (checkSection document st sectionId)))%nat /\
  (forall other, is_Some (elementsRef st !! other) ->
     elementsRef (checkSection document st sectionId) !! other
     = elementsRef st !! other).
Proof.
  destruct (checkSection_cases document st sectionId)
    as [[-> _] | (el & ob & _ & _ & Hnone & ->)]; [split; auto |].
  simpl. split.
  - rewrite length_app, map_size_insert_None by assumption. simpl. lia.
  - intros other [x Hx]. apply lookup_insert_ne. congruence.
Qed.

Lemma check_count document sections : forall st,
  (length (observing (checkAndObserveElements document sections st))
   + size (elementsRef st)
   = length (observing st)
     + size (elementsRef (checkAndObserveElements document sections st)))%nat
  /\
  (forall other, is_Some (elementsRef st !! other) ->
     elementsRef (checkAndObserveElements document sections st) !! other
     = elementsRef st !! other).
Proof.
  induction sections as [| x xs IH]; intros st; [split; auto |].
  simpl. destruct (checkSection_count document st x) as [H1 H2].
  destruct (IH (checkSection document st x)) as [H3 H4].
  split; [lia |].
  intros other Hs. rewrite H4, H2; [reflexivity | assumption |].
  apply checkSection_keeps, Hs.
Qed.

(** X13: over any series of polls, with whatever documents and section
    lists, [observe] is called exactly once for each section newly
    recorded in [elementsRef] and never for a section already recorded,
    whose element is kept even if the document now has another one. *)
Theorem one_observation_per_section
    (ps : list ((string -> option nat) * list string)) (st : state) :
  (length (observing (polls ps st)) + size (elementsRef st)
   = length (observing st) + size (elementsRef (polls ps st)))%nat /\
  (forall sectionId, is_Some (elementsRef st !! sectionId) ->
     elementsRef (polls ps st) !! sectionId = elementsRef st !! sectionId).
Proof.
  revert st. induction ps as [| [document sections] ps IH]; intros st;
    [split; auto |].
  simpl. destruct (check_count document sections st) as [H1 H2].
  destruct (IH (checkAndObserveElements document sections st)) as [H3 H4].
  fold (polls ps (checkAndObserveElements document sections st)) in *.
  split; [lia |].
  intros sectionId Hs. rewrite H4, H2; [reflexivity | assumption |].
  rewrite H2; assumption.
Qed.

Lemma disconnect_subset observer pairs pr :
  In pr (disconnect observer pairs) -> In pr pairs /\ fst pr <> observer.
Proof.
  unfold disconnect. rewrite List.filter_In. intros [H1 H2].
  split; [assumption |]. intros Heq. rewrite Heq, Nat.eqb_refl in H2.
  discriminate H2.
Qed.

Lemma disconnect_all observers : forall pairs pr,
  In pr (fold_right disconnect pairs observers) ->
  In pr pairs /\ ~ In (fst pr) observers.
Proof.
  induction observers as [| x xs IH]; intros pairs pr H; simpl in *.
  - split; [assumption | tauto].
  - apply disconnect_subset in H as [H Hne].
    destruct (IH _ _ H) as [H1 H2]. split; [assumption |].
    intros [-> | Hin]; [congruence | tauto].
Qed.

Lemma createObservers_fields sections st :
  elementsRef (createObservers sections st) = elementsRef st /\
  observing (createObservers sections st) = observing st.
Proof.
  unfold createObservers.
  destruct (newObservers sections (nextObserver st) ∅); split; reflexivity.
Qed.

(** X14: when the observers are created anew (the old ones disconnected),
    the old observers observe nothing any more, and for sections that
    are already recorded in [elementsRef] the poll attaches none of the
    new observers: it leaves the state as it is. *)
Theorem recreated_observers_not_attached
    (document : string -> option nat) (sections : list string) (st : state) :
  (forall sectionId, sectionId ∈ sections ->
     is_Some (elementsRef st !! sectionId)) ->
  checkAndObserveElements document sections
    (createObservers sections (disconnectObservers st))
  = createObservers sections (disconnectObservers st) /\
  (forall pr sectionId,
      In pr (observing (createObservers sections (disconnectObservers st))) ->
      observersRef st !! sectionId <> Some (fst pr)).
Proof.
  intros Hrec.
  destruct (createObservers_fields sections (disconnectObservers st))
    as [He Ho].
  split.
  - apply check_nothing_to_do. intros sectionId Hin.
    right. right. rewrite He. simpl. apply Hrec, Hin.
  - intros pr sectionId Hin Hob. rewrite Ho in Hin. simpl in Hin.
    apply disconnect_all in Hin as [_ Hnot]. apply Hnot.
    apply in_map_iff. exists (sectionId, fst pr). split; [reflexivity |].
    apply list_elem_of_In, elem_of_map_to_list. assumption.
Qed.

Lemma recreated_observers_not_attached_witness :
  let st :=
    checkAndObserveElements (fun _ => Some 7%nat) ["about"%string]
      (createObservers ["about"%string] initial) in
  checkAndObserveElements (fun _ => Some 7%nat) ["about"%string]
    (createObservers ["about"%string] (disconnectObservers st))
  = createObservers ["about"%string] (disconnectObservers st).
Proof.
  refine (proj1 (recreated_observers_not_attached (fun _ => Some 7%nat)
                   ["about"%string]
                   (checkAndObserveElements (fun _ => Some 7%nat)
                      ["about"%string]
                      (createObservers ["about"%string] initial)) _)).
  intros sectionId Hin. apply list_elem_of_singleton in Hin as ->.
  vm_compute. eauto.
Defined.

(** After the observers of the mounted hook are created anew, nothing
    is observed any more. *)
Example recreation_stops_observation :
  let st :=
    checkAndObserveElements (fun _ => Some 7%nat) ["about"%string]
      (createObservers ["about"%string] initial) in
  observing st = [(0%nat, 7%nat)] /\
  observing
    (checkAndObserveElements (fun _ => Some 7%nat) ["about"%string]
       (createObservers ["about"%string] (disconnectObservers st)))
  = [].
Proof. split; vm_compute; reflexivity. Qed.

End ObserversFacts.

(** ** Map animation: further properties *)

Section MapAnimationMore.
Import MapAnimation.

Lemma runListener_idle l st : isAnimating (runListener l st) = false.
Proof.
  destruct l as [[] self]; unfold runListener, onMoveEnd, onError,
    settleCurrent; simpl; destruct (animationPromise st); reflexivity.
Qed.

Lemma listeners_idle ls : forall st,
  isAnimating st = false ->
  isAnimating (fold_left (fun s l => runListener l s) ls st) = false.
Proof.
  induction ls as [| l ls IH]; intros st H; [assumption |].
  simpl. apply IH, runListener_idle.
Qed.

Lemma snapshot_head k l0 ls0 :
  In l0 ls0 -> kind l0 = k ->
  exists l ls,
    List.filter (fun l => eventKind_eqb (kind l) k) ls0 = l :: ls /\
    kind l = k.
Proof.
  intros Hin Hk.
  destruct (List.filter (fun l => eventKind_eqb (kind l) k) ls0)
    as [| l ls] eqn:E.
  - assert (H : In l0 (List.filter (fun l => eventKind_eqb (kind l) k) ls0)).
    { apply List.filter_In. split; [assumption |].
      rewrite Hk. destruct k; reflexivity. }
    rewrite E in H. destruct H.
  - exists l, ls. split; [reflexivity |].
    assert (H : In l (List.filter (fun l => eventKind_eqb (kind l) k) ls0))
      by (rewrite E; left; reflexivity).
    apply List.filter_In in H as [_ H]. apply eventKind_eqb_eq, H.
Qed.

Lemma fire_idle k st : busyIsArmed st -> isAnimating (fire k st) = false.
Proof.
  intros Harmed. unfold fire.
  destruct (isAnimating st) eqn:Hb.
  - destruct (Harmed Hb) as (p & _ & _ & HM & HE).
    assert (H : exists l ls,
               List.filter (fun l => eventKind_eqb (kind l) k) (listeners st)
               = l :: ls /\ kind l = k).
    { destruct k.
      - apply (snapshot_head MoveEnd _ _ HM). reflexivity.
      - apply (snapshot_head Error _ _ HE). reflexivity. }
    destruct H as (l & ls & -> & _). simpl.
    apply listeners_idle, runListener_idle.
  - apply listeners_idle, Hb.
Qed.

Lemma step_busyIsArmed st a :
  unborn st -> busyIsArmed st -> busyIsArmed (step st a).
Proof.
  intros Hu Harmed.
  destruct a as [mapPresent throws region | k |]; simpl.
  - destruct (Hu (nextPromise st) (Nat.le_refl _)) as [Hnone Hrel].
    unfold flyToRegion. simpl.
    destruct (negb mapPresent || isAnimating st) eqn:Hguard;
      [| destruct throws].
    + intros Hb. simpl in Hb.
      destruct (Harmed Hb) as (p & Hp & Hpend & HM & HE).
      exists p. simpl. repeat split; try assumption.
      rewrite settlementsOf_settle.
      change (settlementsOf p (newPromise st)) with (settlementsOf p st).
      rewrite Hpend.
      destruct (Nat.eqb_spec (nextPromise st) p) as [Heq | _];
        [| reflexivity].
      exfalso. apply Hrel. rewrite Heq. assumption.
    + intros Hb. discriminate Hb.
    + intros _. exists (nextPromise st). simpl.
      repeat split; try exact Hnone; rewrite !in_app_iff; simpl; auto.
  - intros Hb. rewrite fire_idle in Hb by assumption. discriminate Hb.
  - intros Hb. discriminate Hb.
Qed.

Lemma run_busyIsArmed acts : forall st,
  unborn st -> busyIsArmed st -> busyIsArmed (run acts st).
Proof.
  induction acts as [| a acts IH]; intros st Hu Harmed; [assumption |].
  simpl. apply IH; [apply step_unborn | apply step_busyIsArmed]; assumption.
Qed.

Lemma initial_busyIsArmed : busyIsArmed initial.
Proof. intros H. discriminate H. Qed.


(** X15: in every state the hook can reach, a set animation flag means
    that the hook holds a promise which is still pending and that both
    listeners of that promise are registered on the map; so the flag is
    never stuck: the next [moveend] or [error] event clears it and
    settles that promise. *)
Theorem busy_flag_is_armed (pre : list action) :
  busyIsArmed (run pre initial) /\
  (forall k,
      isAnimating (run pre initial) = true ->
      isAnimating (fire k (run pre initial)) = false /\
      exists p,
        animationPromise (run pre initial) = Some p /\
        settlementsOf p (fire k (run pre initial)) = [outcomeOf k]).
Proof.
  assert (Harmed : busyIsArmed (run pre initial))
    by (apply run_busyIsArmed;
        [apply initial_unborn | apply initial_busyIsArmed]).
  split; [exact Harmed |].
  intros k Hb. split; [apply fire_idle, Harmed |].
  destruct (Harmed Hb) as (p & Hp & Hpend & HM & HE).
  exists p. split; [assumption |].
  assert (H : exists l ls,
             List.filter (fun l => eventKind_eqb (kind l) k)
               (listeners (run pre initial)) = l :: ls /\ kind l = k).
  { destruct k.
    - apply (snapshot_head MoveEnd _ _ HM). reflexivity.
    - apply (snapshot_head Error _ _ HE). reflexivity. }
  destruct H as (l & ls & Hsnap & Hk).
  unfold fire. rewrite Hsnap.
  apply (listeners_settle p k l ls _ Hk Hp Hpend).
Qed.

Lemma busy_flag_is_armed_witness :
  isAnimating (fire Error (run [FlyToRegion true false makati] initial))
  = false /\
  exists p,
    animationPromise (run [FlyToRegion true false makati] initial) = Some p /\
    settlementsOf p (fire Error (run [FlyToRegion true false makati] initial))
    = [outcomeOf Error].
Proof.
  refine (proj2 (busy_flag_is_armed [FlyToRegion true false makati])
            Error _).
  reflexivity.
Defined.

(** X16: when [mapInstance.flyTo] raises, the promise of the call is
    rejected by one call of [reject], no listener is registered and the
    animation flag is cleared again, but the hook goes on holding the
    functions of the rejected promise: an unmount that follows calls
    its [resolve] with false, a second call that cannot change the
    rejected promise.  The next call of [flyToRegion] is not refused:
    it starts an animation and takes the place of the rejected promise
    in the hook. *)
Theorem flyTo_failure_rejects
    (pre : list action) (region next : MapRegion) :
  isAnimating (run pre initial) = false ->
  settlementsOf (nextPromise (run pre initial))
    (flyToRegion true true region (run pre initial)) = [Rejected] /\
  isAnimating (flyToRegion true true region (run pre initial)) = false /\
  listeners (flyToRegion true true region (run pre initial))
  = listeners (run pre initial) /\
  flyToCalls (flyToRegion true true region (run pre initial))
  = flyToCalls (run pre initial) ++ [region] /\
  animationPromise (flyToRegion true true region (run pre initial))
  = Some (nextPromise (run pre initial)) /\
  settlementsOf (nextPromise (run pre initial))
    (unmount (flyToRegion true true region (run pre initial)))
  = [Rejected; Resolved false] /\
  promiseState (nextPromise (run pre initial))
    (unmount (flyToRegion true true region (run pre initial)))
  = Some Rejected /\
  isAnimating
    (flyToRegion true false next
       (flyToRegion true true region (run pre initial))) = true /\
  animationPromise
    (flyToRegion true false next
       (flyToRegion true true region (run pre initial)))
  = Some (S (nextPromise (run pre initial))) /\
  flyToCalls
    (flyToRegion true false next
       (flyToRegion true true region (run pre initial)))
  = flyToCalls (run pre initial) ++ [region; next].
Proof.
  intros Hidle. set (st := run pre initial) in *.
  assert (Hu : unborn st) by apply run_unborn, initial_unborn.
  destruct (Hu (nextPromise st) (Nat.le_refl _)) as [Hnone _].
  assert (Hcall : flyToRegion true true region st
                  = settle (nextPromise st) Rejected
                      (setAnimating false
                         (callFlyTo region
                            (setPromise (Some (nextPromise st))
                               (setAnimating true (newPromise st)))))).
  { unfold flyToRegion. simpl. rewrite Hidle. reflexivity. }
  rewrite Hcall.
  assert (Hrej : settlementsOf (nextPromise st)
                   (settle (nextPromise st) Rejected
                      (setAnimating false
                         (callFlyTo region
                            (setPromise (Some (nextPromise st))
                               (setAnimating true (newPromise st))))))
                 = [Rejected]).
  { rewrite settlementsOf_settle, Nat.eqb_refl.
    change (settlementsOf (nextPromise st) _)
      with (settlementsOf (nextPromise st) st) at 1.
    rewrite Hnone. reflexivity. }
  assert (Hun : settlementsOf (nextPromise st)
                  (unmount
                     (settle (nextPromise st) Rejected
                        (setAnimating false
                           (callFlyTo region
                              (setPromise (Some (nextPromise st))
                                 (setAnimating true (newPromise st)))))))
                = [Rejected; Resolved false]).
  { match goal with
    | |- settlementsOf _ (unmount ?failed) = _ =>
        change (settlementsOf (nextPromise st) (unmount failed))
          with (settlementsOf (nextPromise st)
                  (settle (nextPromise st) (Resolved false) failed))
    end.
    rewrite settlementsOf_settle, Hrej, Nat.eqb_refl. reflexivity. }
  split; [exact Hrej |].
  split; [reflexivity |]. split; [reflexivity |]. split; [reflexivity |].
  split; [reflexivity |]. split; [exact Hun |].
  split; [unfold promiseState; rewrite Hun; reflexivity |].
  split; [reflexivity |]. split; [reflexivity |].
  unfold flyToRegion. simpl. rewrite <- app_assoc. reflexivity.
Qed.

Lemma flyTo_failure_rejects_witness :
  settlementsOf (nextPromise (run [] initial))
    (flyToRegion true true makati (run [] initial)) = [Rejected] /\
  settlementsOf (nextPromise (run [] initial))
    (unmount (flyToRegion true true makati (run [] initial)))
  = [Rejected; Resolved false].
Proof.
  assert (H : isAnimating (run [] initial) = false) by reflexivity.
  pose proof (flyTo_failure_rejects [] makati makati H)
    as (H1 & _ & _ & _ & _ & H6 & _).
  exact (conj H1 H6).
Defined.





Lemma fire_tidy k st : tidy st -> tidy (fire k st).
Proof.
  intros [[Hidle Hls] | (p & Hb & Hp & Hls)]; unfold fire; rewrite Hls.
  - left. split; assumption.
  - left.
    destruct k; simpl; unfold runListener, onMoveEnd, onError, settleCurrent,
      off; simpl; rewrite Hls, Hp; unfold listener_eqb; simpl;
      rewrite ?Nat.eqb_refl; simpl; rewrite ?Nat.eqb_refl; simpl;
      split; reflexivity.
Qed.

Lemma flyToRegion_tidy mapPresent throws region st :
  tidy st -> tidy (flyToRegion mapPresent throws region st).
Proof.
  intros [[Hidle Hls] | (p & Hb & Hp & Hls)]; unfold flyToRegion; simpl.
  - rewrite Hidle, orb_false_r.
    destruct mapPresent; simpl; [destruct throws |].
    + left. simpl. split; [reflexivity | assumption].
    + right. exists (nextPromise st). simpl. rewrite Hls.
      repeat split.
    + left. simpl. split; assumption.
  - rewrite Hb, orb_true_r. right. exists p. simpl. repeat split; assumption.
Qed.

Lemma run_tidy acts : forall st, mounted acts -> tidy st -> tidy (run acts st).
Proof.
  induction acts as [| a acts IH]; intros st Hm Ht; [assumption |].
  inversion Hm as [| ? ? Ha Hrest]; subst.
  simpl. apply IH; [assumption |].
  destruct a as [mapPresent throws region | k |]; simpl.
  - apply flyToRegion_tidy, Ht.
  - apply fire_tidy, Ht.
  - congruence.
Qed.

(** X18: while the hook stays mounted its listeners never pile up on the
    map: after any series of calls and events the map holds no listener
    of the hook when no animation is in progress, and exactly the
    [moveend] and [error] listeners of the current animation when one
    is. *)
Theorem listeners_never_accumulate (pre : list action) :
  mounted pre -> tidy (run pre initial).
Proof.
  intros Hm. apply run_tidy; [assumption |].
  left. split; reflexivity.
Qed.

Lemma listeners_never_accumulate_witness :
  tidy (run [FlyToRegion true false makati; Fire Error;
             FlyToRegion true true makati; FlyToRegion true false makati]
          initial).
Proof.
  refine (listeners_never_accumulate
            [FlyToRegion true false makati; Fire Error;
             FlyToRegion true true makati; FlyToRegion true false makati] _).
  repeat constructor; discriminate.
Defined.







End MapAnimationMore.

(** ** The map component *)

Section MapboxMapFacts.
Import MapboxMap.

(** X20: the easing written inline in [flyTo] of the map component is
    the function [easeInOutQuad] of the tour, for every [t]. *)
Theorem flyTo_easing_is_easeInOutQuad (t : Q) :
  flyToEasing t == Kernel.easeInOutQuad t.
Proof.
  unfold flyToEasing, Kernel.easeInOutQuad.
  assert (Hhalf : Qltb t 0.5 = Qltb t (1 # 2))
    by (apply Qltb_comp; reflexivity).
  rewrite Hhalf. destruct (Qltb t (1 # 2)); ring.
Qed.

Lemma orElse_spec x d :
  (x == 0 -> orElse x d = d) /\ (~ x == 0 -> orElse x d = x).
Proof.
  unfold orElse. destruct (Qeq_bool x 0) eqn:E; split; intros H;
    try reflexivity.
  - apply Qeq_bool_eq in E. contradiction.
  - apply Qeq_bool_iff in H. congruence.
Qed.

(** X21: [flyTo] of the map component does nothing unless the map is
    present and its style loaded.  When it flies, centre and zoom are
    those of the region and the bearing is numerically that of the
    region, but a pitch of zero is replaced by 60: a region cannot be
    flown to with the camera looking straight down. *)
Theorem flyTo_guard_and_defaults
    (mapPresent styleLoaded : bool) (region : MapAnimation.MapRegion) :
  (flyTo mapPresent styleLoaded region = None
   <-> mapPresent = false \/ styleLoaded = false) /\
  (forall options,
      flyTo mapPresent styleLoaded region = Some options ->
      center options = MapAnimation.center region /\
      zoom options = MapAnimation.zoom region /\
      bearing options == MapAnimation.bearing region /\
      (MapAnimation.pitch region == 0 -> pitch options = 60) /\
      (~ MapAnimation.pitch region == 0 ->
       pitch options = MapAnimation.pitch region)).
Proof.
  unfold flyTo. split.
  - destruct mapPresent, styleLoaded; simpl; split;
      first [discriminate | intros [H | H]; discriminate H | auto].
  - intros options H.
    destruct (negb mapPresent || negb styleLoaded); [discriminate |].
    injection H as <-. simpl.
    destruct (orElse_spec (MapAnimation.bearing region) 0) as [Hb0 Hb1].
    destruct (orElse_spec (MapAnimation.pitch region) 60) as [Hp0 Hp1].
    repeat split; try assumption.
    destruct (Qeq_dec (MapAnimation.bearing region) 0) as [E | E].
    + rewrite (Hb0 E), E. reflexivity.
    + rewrite (Hb1 E). reflexivity.
Qed.

Lemma flyTo_guard_and_defaults_witness :
  pitch {| center := (121, 14); zoom := 9; bearing := 0; pitch := 60;
           duration := 4000; essential := true; curve := 1.4;
           speed := 0.4 |} = 60.
Proof.
  refine (proj1 (proj2 (proj2 (proj2
            (proj2 (flyTo_guard_and_defaults true true
                      {| MapAnimation.name := "overview";
                         MapAnimation.center := (121, 14);
                         MapAnimation.zoom := 9;
                         MapAnimation.bearing := 0;
                         MapAnimation.pitch := 0 |}) _ _)))) _);
    reflexivity.
Defined.

Lemma prefix_pk t :
  String.prefix "pk." t = true <-> exists rest, t = ("pk." ++ rest)%string.
Proof.
  split.
  - intros H.
    destruct t as [| c1 [| c2 [| c3 rest]]];
      cbn -[Ascii.ascii_dec] in H;
      repeat match type of H with
             | context [Ascii.ascii_dec ?a ?b] =>
                 destruct (Ascii.ascii_dec a b)
             end;
      try discriminate H.
    subst. exists rest. reflexivity.
  - intros [rest ->]. cbn -[Ascii.ascii_dec].
    repeat (destruct (Ascii.ascii_dec _ _); [| congruence]).
    destruct rest; reflexivity.
Qed.

(** X22: the run of the initialisation effect stores a new map exactly
    when it is in the browser, no map exists yet, the token starts with
    [pk.], the container is mounted and the constructor does not
    raise; it calls [setError] exactly when, in the browser and without
    a map, the token is missing, empty or does not start with [pk.],
    or the token and the container are there and the [try] block
    raises. *)
Theorem init_creates_map_iff
    (inBrowser mapExists : bool) (token : option string)
    (containerReady : bool) (block : tryBlock) :
  (storesMap (initGuards inBrowser mapExists token containerReady block)
   = true
   <-> inBrowser = true /\ mapExists = false /\ containerReady = true /\
       (exists rest, token = Some ("pk." ++ rest)%string) /\
       block <> ConstructorThrows) /\
  (reportsError (initGuards inBrowser mapExists token containerReady block)
   = true
   <-> inBrowser = true /\ mapExists = false /\
       ((~ exists rest, token = Some ("pk." ++ rest)%string) \/
        ((exists rest, token = Some ("pk." ++ rest)%string) /\
         containerReady = true /\ block <> Completes))).
Proof.
  assert (Hpk : forall t rest, token = Some t ->
                  token = Some ("pk." ++ rest)%string ->
                  String.prefix "pk." t = true).
  { intros t rest -> [= ->]. apply prefix_pk. eauto. }
  unfold initGuards.
  destruct inBrowser; simpl;
    [| split; split; [discriminate | intros (H & _); discriminate H
                     | discriminate | intros (H & _); discriminate H]].
  destruct mapExists; simpl;
    [split; split; [discriminate | intros (_ & H & _); discriminate H
                   | discriminate | intros (_ & H & _); discriminate H] |].
  destruct token as [t |];
    [| split; split;
       [discriminate | intros (_ & _ & _ & [rest H] & _); discriminate H
       | intros _; repeat split; left; intros [rest H]; discriminate H
       | reflexivity]].
  destruct t as [| c t];
    [split; split;
       [discriminate | intros (_ & _ & _ & [rest H] & _); discriminate H
       | intros _; repeat split; left; intros [rest H]; discriminate H
       | reflexivity] |].
  destruct (String.prefix "pk." (String c t)) eqn:E; cbn [negb].
  - pose proof (proj1 (prefix_pk _) E) as [rest Hrest].
    assert (Hex : exists r, Some (String c t) = Some ("pk." ++ r)%string)
      by (exists rest; rewrite Hrest; reflexivity).
    destruct containerReady; cbn [negb].
    + destruct block; cbn [storesMap reportsError]; split; split;
        try discriminate; try reflexivity.
      * intros (_ & _ & _ & _ & H). congruence.
      * intros _. repeat split. right. repeat split;
          [exact Hex | discriminate].
      * intros _. repeat split; [exact Hex | discriminate].
      * intros _. repeat split. right. repeat split;
          [exact Hex | discriminate].
      * intros _. repeat split; [exact Hex | discriminate].
      * intros (_ & _ & [H | (_ & _ & H)]); [contradiction | congruence].
    + cbn [storesMap reportsError]. split; split; try discriminate.
      * intros (_ & _ & H & _). discriminate H.
      * intros (_ & _ & [H | (_ & H & _)]);
          [contradiction | discriminate H].
  - cbn [storesMap reportsError]. split; split.
    + discriminate.
    + intros (_ & _ & _ & [rest H] & _).
      rewrite (Hpk _ rest eq_refl H) in E. discriminate E.
    + intros _. repeat split. left. intros [rest H].
      rewrite (Hpk _ rest eq_refl H) in E. discriminate E.
    + reflexivity.
Qed.

End MapboxMapFacts.
